(** * Memory planning of the DNNL graph backend

    A shallow embedding of [backend/dnnl/passes/memory_planning.hpp]:
    the free-list allocator [buffer_assigner_t] and the diagnostic
    string of [memory_planner_t::get_memory_info], together with the
    properties the design document states about them. *)

From stdpp Require Import base numbers option list sorting gmap strings pretty.

Local Open Scope N_scope.

(** ** Machine integers and call outcomes *)

(** [size_t] is a 64-bit unsigned integer: values live in [N] and every
    arithmetic result that can leave the range is reduced explicitly. *)
Definition SIZE_WIDTH : N := 64.
Definition SIZE_MODULUS : N := 2 ^ SIZE_WIDTH.
Definition size_wrap (n : N) : N := n mod SIZE_MODULUS.

(** [static_cast<size_t>(-1)], the id that stands for "no buffer". *)
Definition NO_BUFFER : N := SIZE_MODULUS - 1.

(** What a call can do: return, stop on a failed assertion, or run into
    behaviour the language leaves undefined (dereferencing [end()],
    decrementing [begin()], following a dangling pointer). *)
Inductive outcome (A : Type) : Type :=
  | Ok (a : A)
  | AssertFail (msg : string)
  | Undefined.
Arguments Ok {A} a.
Arguments AssertFail {A} msg.
Arguments Undefined {A}.

Global Instance outcome_ret : MRet outcome := λ A a, Ok a.
Global Instance outcome_bind : MBind outcome := λ A B k m,
  match m with
  | Ok a => k a
  | AssertFail msg => AssertFail msg
  | Undefined => Undefined
  end.

(** Modelled from the spec: the [assertm(cond, msg)] macro comes from
    [utils/utils.hpp], which is not among the sources.  The design document
    calls a failed check "fatal, asserted immediately", so a false condition
    stops the call with the message and nothing after it runs. *)
Definition assertm (cond : bool) (msg : string) : outcome unit :=
  if cond then Ok () else AssertFail msg.

(** ** [std::multimap<size_t, buffer_info_t *>]

    The free list is an ordered multimap.  It is kept as the list of its
    entries in iteration order; an iterator is a position in that list and
    [end()] is the length.  A [buffer_info_t *] is the index of the cell in
    [data_] that owns the object. *)
Module multimap.

Abbreviation t := (list (N * nat)).

(** First position whose key is not less than [k]. *)
Fixpoint lower_bound (k : N) (m : t) : nat :=
  match m with
  | [] => 0%nat
  | e :: m' => if k <=? e.1 then 0%nat else S (lower_bound k m')
  end.

(** First position whose key is greater than [k]. *)
Fixpoint upper_bound (k : N) (m : t) : nat :=
  match m with
  | [] => 0%nat
  | e :: m' => if k <? e.1 then 0%nat else S (upper_bound k m')
  end.

(** [insert] puts the new entry after every entry with an equivalent key
    (the upper bound of the equal range). *)
Fixpoint insert (k : N) (p : nat) (m : t) : t :=
  match m with
  | [] => [(k, p)]
  | e :: m' => if k <? e.1 then (k, p) :: e :: m' else e :: insert k p m'
  end.

Definition erase (it : nat) (m : t) : t := delete it m.

Definition keys (m : t) : list N := m.*1.
Definition pointers (m : t) : list nat := m.*2.

(** The ordering the container maintains. *)
Definition sorted (m : t) : Prop := StronglySorted N.le (keys m).

End multimap.

(** ** [buffer_assigner_t] *)

Record buffer_info_t : Type := mk_buffer_info {
  id_ : N;
  max_bytes_ : N
}.

Record buffer_assigner_t : Type := mk_buffer_assigner {
  match_range_ : N;
  free_ : multimap.t;
  data_ : list buffer_info_t
}.

(** [explicit buffer_assigner_t(const size_t match_range)] *)
Definition new_assigner (match_range : N) : buffer_assigner_t :=
  {| match_range_ := match_range; free_ := []; data_ := [] |}.

(** [alloc]: the new id is the current length of [data_]. *)
Definition alloc (st : buffer_assigner_t) (size : N) : N * buffer_assigner_t :=
  let id := N.of_nat (length (data_ st)) in
  (id, {| match_range_ := match_range_ st;
          free_ := free_ st;
          data_ := data_ st ++ [mk_buffer_info id size] |}).

(** The body shared by both search loops of [request]: read the entry under
    the iterator, raise the slot's [max_bytes_], erase the entry and return
    the slot's id.  Both loops return in their first iteration. *)
Definition take_free (st : buffer_assigner_t) (it : nat) (size : N)
  : outcome (N * buffer_assigner_t) :=
  match free_ st !! it with
  | None => Undefined
  | Some (_, e) =>
      match data_ st !! e with
      | None => Undefined
      | Some b =>
          Ok (id_ b,
              {| match_range_ := match_range_ st;
                 free_ := multimap.erase it (free_ st);
                 data_ := <[e := mk_buffer_info (id_ b) (N.max size (max_bytes_ b))]>
                            (data_ st) |})
      end
  end.

Definition request (st : buffer_assigner_t) (size : N)
  : outcome (N * buffer_assigner_t) :=
  if size =? 0 then Ok (NO_BUFFER, st)
  else if match_range_ st =? 0 then Ok (alloc st size)
  else
    let begin := multimap.lower_bound (size / match_range_ st) (free_ st) in
    let mid := multimap.lower_bound size (free_ st) in
    let end_ := multimap.upper_bound (size_wrap (size * match_range_ st)) (free_ st) in
    if bool_decide (mid ≠ end_) then take_free st mid size
    else if bool_decide (mid ≠ begin) then
      match mid with
      | O => Undefined
      | S it => take_free st it size
      end
    else Ok (alloc st size).

Definition valid_id (st : buffer_assigner_t) (id : N) : bool :=
  (id <? N.of_nat (length (data_ st))) || (id =? NO_BUFFER).

Definition release (st : buffer_assigner_t) (id : N) : outcome buffer_assigner_t :=
  _ ← assertm (valid_id st id) "invalid buffer id";
  if id =? NO_BUFFER then Ok st
  else match data_ st !! N.to_nat id with
       | None => Undefined
       | Some e =>
           Ok {| match_range_ := match_range_ st;
                 free_ := multimap.insert (max_bytes_ e) (N.to_nat id) (free_ st);
                 data_ := data_ st |}
       end.

Definition query_size (st : buffer_assigner_t) (id : N) : outcome N :=
  _ ← assertm (valid_id st id) "invalid buffer id";
  if id =? NO_BUFFER then Ok 0
  else match data_ st !! N.to_nat id with
       | None => Undefined
       | Some e => Ok (max_bytes_ e)
       end.

Definition clear (st : buffer_assigner_t) : buffer_assigner_t :=
  {| match_range_ := match_range_ st; free_ := []; data_ := [] |}.

(** ** Call sequences

    A client drives the assigner through a sequence of calls.  The trace
    keeps what happened, newest event first, so that the slots a client
    holds at any moment can be read off it. *)
Inductive op : Type :=
  | Request (size : N)
  | Release (id : N).

Inductive event : Type :=
  | EvRequest (size id : N)
  | EvRelease (id : N).

Fixpoint run (st : buffer_assigner_t) (t : list event) (ops : list op)
  : outcome (list event * buffer_assigner_t) :=
  match ops with
  | [] => Ok (t, st)
  | Request size :: ops' =>
      '(id, st') ← request st size; run st' (EvRequest size id :: t) ops'
  | Release id :: ops' =>
      st' ← release st id; run st' (EvRelease id :: t) ops'
  end.

(** Slots held by the client after the trace: requested and not released
    since.  The sentinel is "no buffer" and is never held. *)
Fixpoint live (t : list event) : list N :=
  match t with
  | [] => []
  | EvRequest _ id :: t' => if bool_decide (id = NO_BUFFER) then live t' else id :: live t'
  | EvRelease id :: t' => filter (λ x, x ≠ id) (live t')
  end.

(** Every slot id a request has handed out so far. *)
Fixpoint returned (t : list event) : list N :=
  match t with
  | [] => []
  | EvRequest _ id :: t' => if bool_decide (id = NO_BUFFER) then returned t' else id :: returned t'
  | EvRelease _ :: t' => returned t'
  end.

(** A client is disciplined when it releases only what it holds (or the
    sentinel, whose release does nothing). *)
Fixpoint disciplined (t : list event) : Prop :=
  match t with
  | [] => True
  | EvRequest _ _ :: t' => disciplined t'
  | EvRelease id :: t' => (id = NO_BUFFER ∨ id ∈ live t') ∧ disciplined t'
  end.

(** ** Class invariant

    What holds of an assigner between calls of a disciplined client: cell
    [p] of [data_] carries id [p]; the free list is ordered, names each
    slot at most once, and files each slot under its recorded size. *)
Definition data_ok (st : buffer_assigner_t) : Prop :=
  id_ <$> data_ st = N.of_nat <$> seq 0 (length (data_ st)).

Definition free_ok (st : buffer_assigner_t) : Prop :=
  Forall (λ kp, max_bytes_ <$> data_ st !! kp.2 = Some kp.1) (free_ st).

Definition wf (st : buffer_assigner_t) : Prop :=
  data_ok st ∧ free_ok st ∧ multimap.sorted (free_ st)
  ∧ NoDup (multimap.pointers (free_ st)).

(** ** The search policy, as the design document words it *)

(** [e] is a released slot whose recorded maximum size is [sz]. *)
Definition free_slot (st : buffer_assigner_t) (e : nat) (sz : N) : Prop :=
  e ∈ multimap.pointers (free_ st) ∧ max_bytes_ <$> data_ st !! e = Some sz.

(** The tolerance window [[s / R, s * R]], over unbounded naturals. *)
Definition in_window (R s k : N) : Prop := s / R ≤ k ∧ k ≤ s * R.

(** Handing out the free-list entry at position [it], which names slot [e]
    with contents [b], for a request of [s] bytes. *)
Definition reuse (st : buffer_assigner_t) (it e : nat) (b : buffer_info_t) (s : N)
  : N * buffer_assigner_t :=
  (id_ b,
   {| match_range_ := match_range_ st;
      free_ := multimap.erase it (free_ st);
      data_ := <[e := mk_buffer_info (id_ b) (N.max s (max_bytes_ b))]> (data_ st) |}).

Inductive request_spec (st : buffer_assigner_t) (s : N)
  : N * buffer_assigner_t → Prop :=
  | spec_disabled :
      match_range_ st = 0 →
      request_spec st s (alloc st s)
  | spec_above it e b :
      match_range_ st ≠ 0 →
      free_ st !! it = Some (max_bytes_ b, e) →
      data_ st !! e = Some b →
      s ≤ max_bytes_ b →
      max_bytes_ b ≤ s * match_range_ st →
      (∀ e' sz', free_slot st e' sz' → s ≤ sz' → max_bytes_ b ≤ sz') →
      request_spec st s (reuse st it e b s)
  | spec_below it e b :
      match_range_ st ≠ 0 →
      free_ st !! it = Some (max_bytes_ b, e) →
      data_ st !! e = Some b →
      s / match_range_ st ≤ max_bytes_ b →
      max_bytes_ b < s →
      (∀ e' sz', free_slot st e' sz' → ¬ (s ≤ sz' ∧ sz' ≤ s * match_range_ st)) →
      (∀ e' sz', free_slot st e' sz' → sz' < s → sz' ≤ max_bytes_ b) →
      request_spec st s (reuse st it e b s)
  | spec_fresh :
      match_range_ st ≠ 0 →
      (∀ e' sz', free_slot st e' sz' → ¬ in_window (match_range_ st) s sz') →
      request_spec st s (alloc st s).

(** What the design document asks of [request]: the call returns, and
    what it returns is what the policy prescribes. *)
Definition request_meets_policy (st : buffer_assigner_t) (s : N) : Prop :=
  ∃ out, request st s = Ok out ∧ request_spec st s out.

(** ** [memory_planner_t] *)

Inductive buffer_kind_t : Type :=
  | external_input
  | external_output
  | internal_temporary
  | internal_persistent.

Global Instance buffer_kind_eq_dec : EqDecision buffer_kind_t.
Proof. solve_decision. Defined.

Record assign_info_t : Type := mk_assign_info {
  kind_ : buffer_kind_t;
  index_ : N
}.

(** A [const value_t *] is kept as its address.  The execution-argument set
    and the two registries hold library memory objects and play no part in
    the functions below; they are left out of the record. *)
Record memory_planner_t : Type := mk_memory_planner {
  alias_map_ : gmap N N;
  reverse_alias_map_ : gmap N N;
  buffer_assignments_ : gmap N assign_info_t;
  temporary_buffer_ref_count_ : gmap N N;
  persistent_buffer_assigner_ : buffer_assigner_t;
  temporary_buffer_assigner_ : buffer_assigner_t;
  enable_memory_sharing_ : bool
}.

(** The constructor; [mem_reuse] is what
    [getenv_int("_DNNL_GRAPH_ENABLE_MEM_REUSE", 1)] returns. *)
Definition new_memory_planner (mem_reuse : Z) : memory_planner_t :=
  {| alias_map_ := ∅;
     reverse_alias_map_ := ∅;
     buffer_assignments_ := ∅;
     temporary_buffer_ref_count_ := ∅;
     persistent_buffer_assigner_ := new_assigner 16;
     temporary_buffer_assigner_ := new_assigner 16;
     enable_memory_sharing_ := bool_decide (0 < mem_reuse)%Z |}.

(** [std::to_string] on a [size_t]: the decimal numeral. *)
Definition to_string (n : N) : string := pretty n.

(** [get_memory_info] is a [const] member: it hands back the text and
    leaves the planner as it found it. *)
Definition get_memory_info (mp : memory_planner_t) (val : N)
  : string * memory_planner_t :=
  let str := "" in
  match buffer_assignments_ mp !! val with
  | None => (str, mp)
  | Some info =>
      let str :=
        if bool_decide (kind_ info = internal_persistent) then str +:+ "persistent_"
        else if bool_decide (kind_ info = internal_temporary) then str +:+ "temporary_"
        else if bool_decide (kind_ info = external_input) then str +:+ "external_in_"
        else if bool_decide (kind_ info = external_output) then str +:+ "external_out_"
        else str in
      (str +:+ to_string (index_ info), mp)
  end.

(** The four documented forms of the text. *)
Definition memory_info_form (k : buffer_kind_t) (i : N) : string :=
  match k with
  | internal_persistent => "persistent_" +:+ to_string i
  | internal_temporary => "temporary_" +:+ to_string i
  | external_input => "external_in_" +:+ to_string i
  | external_output => "external_out_" +:+ to_string i
  end.

(** A planner that has assigned temporary slot 12 to the value at
    address 5 and nothing else. *)
Definition sample_planner : memory_planner_t :=
  {| alias_map_ := ∅;
     reverse_alias_map_ := ∅;
     buffer_assignments_ := {[ 5 := mk_assign_info internal_temporary 12 ]};
     temporary_buffer_ref_count_ := ∅;
     persistent_buffer_assigner_ := new_assigner 16;
     temporary_buffer_assigner_ := new_assigner 16;
     enable_memory_sharing_ := true |}.

(** ** Histories of a disciplined client *)

(** What ties the assigner to the history of calls: the invariant holds,
    nothing is held twice, held slots are off the free list, every free
    entry was put there by a release, and every id handed out so far is
    the index of an allocated cell. *)
Definition held_inv (st : buffer_assigner_t) (t : list event) : Prop :=
  wf st ∧ NoDup (live t)
  ∧ (∀ id, id ∈ live t → N.to_nat id ∉ multimap.pointers (free_ st))
  ∧ (∀ p, p ∈ multimap.pointers (free_ st) → EvRelease (N.of_nat p) ∈ t)
  ∧ (∀ id, id ∈ returned t → id < N.of_nat (length (data_ st))).

(** The property of a history, moment by moment. *)
Fixpoint sound_history (t : list event) : Prop :=
  match t with
  | [] => True
  | ev :: t0 =>
      NoDup (live t)
      ∧ match ev with
        | EvRequest _ id =>
            (id ≠ NO_BUFFER →
             (id ∉ live t0) ∧ ((id ∉ returned t0) ∨ EvRelease id ∈ t0))
        | EvRelease _ => True
        end
      ∧ sound_history t0
  end.

(** A cell never loses its id and never shrinks. *)
Definition cell_grows (b b' : buffer_info_t) : Prop :=
  id_ b' = id_ b ∧ max_bytes_ b ≤ max_bytes_ b'.

(** ** Counting and covering

    The number of calls in a sequence that ask for a non-empty buffer, and
    the statement that no slot is lost: every slot is held or free. *)
Fixpoint nonzero_requests (ops : list op) : nat :=
  match ops with
  | [] => 0%nat
  | Request size :: ops' =>
      if bool_decide (size = 0) then nonzero_requests ops'
      else S (nonzero_requests ops')
  | Release _ :: ops' => nonzero_requests ops'
  end.

Definition covered (st : buffer_assigner_t) (t : list event) : Prop :=
  ∀ p, (p < length (data_ st))%nat → N.of_nat p ≠ NO_BUFFER →
       N.of_nat p ∈ live t ∨ p ∈ multimap.pointers (free_ st).

(** Every request of the history was served by a slot that is now at least
    as large as the request. *)
Definition served (st : buffer_assigner_t) (t : list event) : Prop :=
  ∀ s id, EvRequest s id ∈ t → id ≠ NO_BUFFER →
    ∃ b, data_ st !! N.to_nat id = Some b ∧ s ≤ max_bytes_ b.

(** The bytes the slots stand for together, and the bytes a call
    sequence asks for together. *)
Definition total_bytes (st : buffer_assigner_t) : N :=
  foldr (λ b acc, max_bytes_ b + acc) 0 (data_ st).

Fixpoint requested_bytes (ops : list op) : N :=
  match ops with
  | [] => 0
  | Request size :: ops' => size + requested_bytes ops'
  | Release _ :: ops' => requested_bytes ops'
  end.

(** ** Release order

    In a history the slot [a] was released before the slot [b] when the
    latest release of [b] is more recent than the latest release of [a].
    The free list is release-ordered when no entry names the sentinel and
    entries of equal size stand in the order of their latest release. *)
Definition released_before (t : list event) (a b : N) : Prop :=
  ∃ t2 t1, t = t2 ++ EvRelease b :: t1
           ∧ (EvRelease b ∉ t2) ∧ (EvRelease a ∉ t2) ∧ EvRelease a ∈ t1.

Definition release_ordered (st : buffer_assigner_t) (t : list event) : Prop :=
  (∀ p, p ∈ multimap.pointers (free_ st) → N.of_nat p ≠ NO_BUFFER)
  ∧ ∀ i j k p q, (i < j)%nat →
      free_ st !! i = Some (k, p) → free_ st !! j = Some (k, q) →
      released_before t (N.of_nat p) (N.of_nat q).

(** ** [memory_planner_t::clear]

    The members the record above leaves out are cleared as well; the
    reference-count table and the sharing flag are not touched. *)
Definition memory_planner_t_clear (mp : memory_planner_t) : memory_planner_t :=
  {| alias_map_ := ∅;
     reverse_alias_map_ := ∅;
     buffer_assignments_ := ∅;
     temporary_buffer_ref_count_ := temporary_buffer_ref_count_ mp;
     persistent_buffer_assigner_ := clear (persistent_buffer_assigner_ mp);
     temporary_buffer_assigner_ := clear (temporary_buffer_assigner_ mp);
     enable_memory_sharing_ := enable_memory_sharing_ mp |}.

(** ** [execution_args_set_t]

    [dnnl::memory] is a handle of the library and [exec_args] is declared
    in [lower_down.hpp]; neither is among the sources, so the class is
    kept generic in both.  A [value_t *] is kept as its address. *)
Record execution_args_set_t (memory exec_args : Type) : Type :=
  mk_execution_args_set {
  mems_use_external_inputs_ : list (memory * N);
  mems_use_external_outputs_ : list (memory * N);
  mems_use_internal_temporary_ : list (memory * N);
  mems_use_internal_persistent_ : list (memory * N);
  value_mem_map_ : gmap N memory;
  topo_ordered_exec_args_ : list exec_args
}.
Arguments mk_execution_args_set {memory exec_args}.
Arguments mems_use_external_inputs_ {memory exec_args}.
Arguments mems_use_external_outputs_ {memory exec_args}.
Arguments mems_use_internal_temporary_ {memory exec_args}.
Arguments mems_use_internal_persistent_ {memory exec_args}.
Arguments value_mem_map_ {memory exec_args}.
Arguments topo_ordered_exec_args_ {memory exec_args}.

(** [execution_args_set_t() = default] *)
Definition new_execution_args_set {memory exec_args : Type}
  : execution_args_set_t memory exec_args :=
  mk_execution_args_set [] [] [] [] ∅ [].

Definition get_exec_args {memory exec_args : Type}
  (s : execution_args_set_t memory exec_args) : list exec_args :=
  topo_ordered_exec_args_ s.

Definition get_value_mem_map {memory exec_args : Type}
  (s : execution_args_set_t memory exec_args) : gmap N memory :=
  value_mem_map_ s.

Definition get_mems_use_external_inputs {memory exec_args : Type}
  (s : execution_args_set_t memory exec_args) : list (memory * N) :=
  mems_use_external_inputs_ s.

Definition get_mems_use_external_outputs {memory exec_args : Type}
  (s : execution_args_set_t memory exec_args) : list (memory * N) :=
  mems_use_external_outputs_ s.

Definition get_mems_use_internal_temporary {memory exec_args : Type}
  (s : execution_args_set_t memory exec_args) : list (memory * N) :=
  mems_use_internal_temporary_ s.

Definition get_mems_use_internal_persistent {memory exec_args : Type}
  (s : execution_args_set_t memory exec_args) : list (memory * N) :=
  mems_use_internal_persistent_ s.

(** [emplace_back] on the vector of per-op arguments. *)
Definition add_exec_args {memory exec_args : Type}
  (s : execution_args_set_t memory exec_args) (args : exec_args)
  : execution_args_set_t memory exec_args :=
  mk_execution_args_set
    (mems_use_external_inputs_ s) (mems_use_external_outputs_ s)
    (mems_use_internal_temporary_ s) (mems_use_internal_persistent_ s)
    (value_mem_map_ s) (topo_ordered_exec_args_ s ++ [args]).

(** [unordered_map::insert]: a key that is already bound keeps its value. *)
Definition add_value_mem_map {memory exec_args : Type}
  (s : execution_args_set_t memory exec_args) (map : N * memory)
  : execution_args_set_t memory exec_args :=
  mk_execution_args_set
    (mems_use_external_inputs_ s) (mems_use_external_outputs_ s)
    (mems_use_internal_temporary_ s) (mems_use_internal_persistent_ s)
    (match value_mem_map_ s !! map.1 with
     | Some _ => value_mem_map_ s
     | None => <[map.1 := map.2]> (value_mem_map_ s)
     end)
    (topo_ordered_exec_args_ s).

Definition add_mem_use_external_inputs {memory exec_args : Type}
  (s : execution_args_set_t memory exec_args) (mem_idx : memory * N)
  : execution_args_set_t memory exec_args :=
  mk_execution_args_set
    (mems_use_external_inputs_ s ++ [mem_idx]) (mems_use_external_outputs_ s)
    (mems_use_internal_temporary_ s) (mems_use_internal_persistent_ s)
    (value_mem_map_ s) (topo_ordered_exec_args_ s).

Definition add_mem_use_external_outputs {memory exec_args : Type}
  (s : execution_args_set_t memory exec_args) (mem_idx : memory * N)
  : execution_args_set_t memory exec_args :=
  mk_execution_args_set
    (mems_use_external_inputs_ s) (mems_use_external_outputs_ s ++ [mem_idx])
    (mems_use_internal_temporary_ s) (mems_use_internal_persistent_ s)
    (value_mem_map_ s) (topo_ordered_exec_args_ s).

Definition add_mem_use_internal_temporary {memory exec_args : Type}
  (s : execution_args_set_t memory exec_args) (mem_offkey : memory * N)
  : execution_args_set_t memory exec_args :=
  mk_execution_args_set
    (mems_use_external_inputs_ s) (mems_use_external_outputs_ s)
    (mems_use_internal_temporary_ s ++ [mem_offkey])
    (mems_use_internal_persistent_ s)
    (value_mem_map_ s) (topo_ordered_exec_args_ s).

Definition add_mem_use_internal_persistent {memory exec_args : Type}
  (s : execution_args_set_t memory exec_args) (mem_offkey : memory * N)
  : execution_args_set_t memory exec_args :=
  mk_execution_args_set
    (mems_use_external_inputs_ s) (mems_use_external_outputs_ s)
    (mems_use_internal_temporary_ s)
    (mems_use_internal_persistent_ s ++ [mem_offkey])
    (value_mem_map_ s) (topo_ordered_exec_args_ s).

(** [find_value_mem_map(key, mem)]: the result and the out-parameter
    [mem] after the call. *)
Definition find_value_mem_map {memory exec_args : Type}
  (s : execution_args_set_t memory exec_args) (key : N) (mem : memory)
  : bool * memory :=
  match value_mem_map_ s !! key with
  | Some m => (true, m)
  | None => (false, mem)
  end.

(** The calls by which the planner fills a set, and their effect in
    sequence. *)
Inductive adder (memory exec_args : Type) : Type :=
  | AddExecArgs (args : exec_args)
  | AddValueMemMap (map : N * memory)
  | AddMemUseExternalInputs (mem_idx : memory * N)
  | AddMemUseExternalOutputs (mem_idx : memory * N)
  | AddMemUseInternalTemporary (mem_offkey : memory * N)
  | AddMemUseInternalPersistent (mem_offkey : memory * N).
Arguments AddExecArgs {memory exec_args}.
Arguments AddValueMemMap {memory exec_args}.
Arguments AddMemUseExternalInputs {memory exec_args}.
Arguments AddMemUseExternalOutputs {memory exec_args}.
Arguments AddMemUseInternalTemporary {memory exec_args}.
Arguments AddMemUseInternalPersistent {memory exec_args}.

Definition call_adder {memory exec_args : Type}
  (s : execution_args_set_t memory exec_args) (c : adder memory exec_args)
  : execution_args_set_t memory exec_args :=
  match c with
  | AddExecArgs args => add_exec_args s args
  | AddValueMemMap map => add_value_mem_map s map
  | AddMemUseExternalInputs m => add_mem_use_external_inputs s m
  | AddMemUseExternalOutputs m => add_mem_use_external_outputs s m
  | AddMemUseInternalTemporary m => add_mem_use_internal_temporary s m
  | AddMemUseInternalPersistent m => add_mem_use_internal_persistent s m
  end.

Definition call_adders {memory exec_args : Type}
  (s : execution_args_set_t memory exec_args)
  (cs : list (adder memory exec_args))
  : execution_args_set_t memory exec_args :=
  foldl call_adder s cs.

(** ** Reference states

    The assigner of the planner (match range 16) after [request(100)],
    [release(0)]; after [request(2^58)], [release(0)]; and after
    [request(2^63 + 1)], [release(0)]. *)
Definition small_state : buffer_assigner_t :=
  {| match_range_ := 16;
     free_ := [(100, 0%nat)];
     data_ := [mk_buffer_info 0 100] |}.

Definition huge_state : buffer_assigner_t :=
  {| match_range_ := 16;
     free_ := [(2 ^ 58, 0%nat)];
     data_ := [mk_buffer_info 0 (2 ^ 58)] |}.

Definition half_state : buffer_assigner_t :=
  {| match_range_ := 16;
     free_ := [(2 ^ 63 + 1, 0%nat)];
     data_ := [mk_buffer_info 0 (2 ^ 63 + 1)] |}.

(** * Properties *)

(** ** The ordered multimap *)
Section multimap_facts.
Import multimap.
Implicit Types (m : multimap.t) (k : N) (e : N * nat).

Lemma sorted_nil : sorted [].
Proof. constructor. Qed.

Lemma sorted_cons e m :
  sorted (e :: m) ↔ Forall (λ e', e.1 ≤ e'.1) m ∧ sorted m.
Proof.
  unfold sorted, keys. rewrite fmap_cons, StronglySorted_cons, Forall_fmap.
  done.
Qed.

Lemma sorted_lookup m i j a b :
  sorted m → (i ≤ j)%nat → m !! i = Some a → m !! j = Some b → a.1 ≤ b.1.
Proof.
  intros Hs. revert i j. induction m as [|e m IH]; intros i j Hij Ha Hb.
  { by rewrite lookup_nil in Ha. }
  apply sorted_cons in Hs as [Hall Hs].
  destruct i as [|i], j as [|j]; simplify_eq/=; try lia.
  - rewrite Forall_forall in Hall. apply Hall. by eapply list_elem_of_lookup_2.
  - apply (IH Hs i j); [lia|done..].
Qed.

Lemma lower_bound_length k m : (lower_bound k m ≤ length m)%nat.
Proof. induction m as [|e m IH]; simpl; [lia|]. case_match; lia. Qed.

Lemma upper_bound_length k m : (upper_bound k m ≤ length m)%nat.
Proof. induction m as [|e m IH]; simpl; [lia|]. case_match; lia. Qed.

(** On an ordered list the linear scans are the container's bounds:
    exactly the entries before [lower_bound k] have a key below [k]. *)
Lemma lower_bound_spec k m j e :
  sorted m → m !! j = Some e → (j < lower_bound k m)%nat ↔ e.1 < k.
Proof.
  intros Hs. revert j. induction m as [|e0 m IH]; intros j Hj.
  { by rewrite lookup_nil in Hj. }
  pose proof (sorted_lookup _ 0 j e0 e Hs) as Hle.
  apply sorted_cons in Hs as [_ Hs]. simpl.
  destruct (N.leb_spec k e0.1).
  - split; [lia|]. intros. specialize (Hle ltac:(lia) eq_refl Hj). lia.
  - destruct j as [|j]; simplify_eq/=; [split; [done|lia]|].
    rewrite <- IH by done. lia.
Qed.

Lemma upper_bound_spec k m j e :
  sorted m → m !! j = Some e → (j < upper_bound k m)%nat ↔ e.1 ≤ k.
Proof.
  intros Hs. revert j. induction m as [|e0 m IH]; intros j Hj.
  { by rewrite lookup_nil in Hj. }
  pose proof (sorted_lookup _ 0 j e0 e Hs) as Hle.
  apply sorted_cons in Hs as [_ Hs]. simpl.
  destruct (N.ltb_spec k e0.1).
  - split; [lia|]. intros. specialize (Hle ltac:(lia) eq_refl Hj). lia.
  - destruct j as [|j]; simplify_eq/=; [split; [done|lia]|].
    rewrite <- IH by done. lia.
Qed.

Lemma lower_bound_mono k k' m :
  k ≤ k' → (lower_bound k m ≤ lower_bound k' m)%nat.
Proof.
  intros Hk. induction m as [|e m IH]; simpl; [lia|].
  destruct (N.leb_spec k e.1), (N.leb_spec k' e.1); lia.
Qed.

Lemma lower_upper_bound k k' m :
  k ≤ k' → (lower_bound k m ≤ upper_bound k' m)%nat.
Proof.
  intros Hk. induction m as [|e m IH]; simpl; [lia|].
  destruct (N.leb_spec k e.1), (N.ltb_spec k' e.1); lia.
Qed.

Lemma insert_perm k p m : insert k p m ≡ₚ (k, p) :: m.
Proof.
  induction m as [|e m IH]; simpl; [done|].
  case_match; [done|]. rewrite IH. apply Permutation_swap.
Qed.

Lemma insert_sorted k p m : sorted m → sorted (insert k p m).
Proof.
  induction m as [|e m IH]; simpl; intros Hs.
  { apply sorted_cons. split; [constructor | apply sorted_nil]. }
  destruct (N.ltb_spec k e.1) as [Hlt|Hge].
  - apply sorted_cons. split; [|done].
    apply sorted_cons in Hs as [Hall _]. constructor; simpl; [lia|].
    eapply Forall_impl; [exact Hall|]. simpl. intros. lia.
  - apply sorted_cons in Hs as [Hall Hs]. apply sorted_cons. split; [|auto].
    rewrite insert_perm. constructor; [simpl; lia | done].
Qed.

Lemma erase_sorted it m : sorted m → sorted (erase it m).
Proof.
  unfold erase. revert it. induction m as [|e m IH]; intros [|it] Hs; simpl; try done.
  - by apply sorted_cons in Hs as [_ ?].
  - apply sorted_cons in Hs as [Hall Hs]. apply sorted_cons. split; [|auto].
    rewrite Forall_forall in *. intros x Hx. apply Hall.
    by eapply list_elem_of_delete_inv.
Qed.

Lemma erase_pointers it m : pointers (erase it m) = delete it (pointers m).
Proof.
  unfold erase, pointers. revert it.
  induction m as [|e m IH]; intros [|it]; simpl; try done. by rewrite <- IH.
Qed.

Lemma insert_pointers k p m : pointers (insert k p m) ≡ₚ p :: pointers m.
Proof. unfold pointers. by rewrite insert_perm. Qed.

End multimap_facts.

(** ** The class invariant is kept *)
Section invariant.
Implicit Types (st : buffer_assigner_t) (b : buffer_info_t).

Lemma wf_new R : wf (new_assigner R).
Proof.
  repeat split; simpl.
  - constructor.
  - apply sorted_nil.
  - constructor.
Qed.

Lemma data_ok_lookup st p b :
  data_ok st → data_ st !! p = Some b → id_ b = N.of_nat p.
Proof.
  unfold data_ok. intros Hd Hp.
  assert ((id_ <$> data_ st) !! p = Some (id_ b)) as Hl
    by (by rewrite list_lookup_fmap, Hp).
  rewrite Hd, list_lookup_fmap in Hl.
  apply lookup_lt_Some in Hp.
  rewrite lookup_seq_lt in Hl by done. by simplify_eq/=.
Qed.

Lemma data_ok_alloc st s : data_ok st → data_ok (alloc st s).2.
Proof.
  unfold data_ok. simpl. intros Hd.
  rewrite length_app, Nat.add_1_r, seq_S, !fmap_app, Hd. done.
Qed.

Lemma data_ok_reuse st it e b s :
  data_ok st → data_ st !! e = Some b → data_ok (reuse st it e b s).2.
Proof.
  unfold data_ok. simpl. intros Hd Hb.
  rewrite list_fmap_insert, length_insert. simpl.
  rewrite list_insert_id; [done|]. by rewrite list_lookup_fmap, Hb.
Qed.

Lemma free_ok_alloc st s : free_ok st → free_ok (alloc st s).2.
Proof.
  unfold free_ok. simpl. intros Hf.
  eapply Forall_impl; [exact Hf|]. intros [k p]; simpl.
  destruct (data_ st !! p) as [b|] eqn:Hp; [|done].
  by rewrite (lookup_app_l_Some _ _ _ _ Hp).
Qed.

(** Entries that remain after erasing position [it] name other slots. *)
Lemma erase_other_pointer (m : multimap.t) it k e x :
  NoDup (multimap.pointers m) → m !! it = Some (k, e) →
  x ∈ multimap.erase it m → x.2 ≠ e.
Proof.
  unfold multimap.pointers, multimap.erase. intros Hnd Hit Hx <-.
  rewrite <- (take_drop_middle _ _ _ Hit) in Hnd.
  rewrite fmap_app, fmap_cons in Hnd.
  apply NoDup_app in Hnd as (_ & Hdisj & Hnd).
  apply NoDup_cons in Hnd as [Hnotin _].
  rewrite delete_take_drop in Hx. apply elem_of_app in Hx as [Hx|Hx].
  - apply (Hdisj x.2); [|by left].
    apply list_elem_of_fmap. by exists x.
  - apply Hnotin. simpl. apply list_elem_of_fmap. by exists x.
Qed.

Lemma wf_alloc st s : wf st → wf (alloc st s).2.
Proof.
  intros (Hd & Hf & Hs & Hn).
  split; [by apply data_ok_alloc|]. split; [by apply free_ok_alloc|]. done.
Qed.

Lemma wf_reuse st it k e b s :
  wf st → free_ st !! it = Some (k, e) → data_ st !! e = Some b →
  wf (reuse st it e b s).2.
Proof.
  intros (Hd & Hf & Hs & Hn) Hit Hb.
  split; [by apply data_ok_reuse|]. repeat split; simpl.
  - unfold free_ok in *. simpl. rewrite Forall_forall in *.
    intros x Hx. pose proof (erase_other_pointer _ _ _ _ _ Hn Hit Hx).
    rewrite list_lookup_insert_ne by done.
    apply Hf. by eapply list_elem_of_delete_inv.
  - by apply erase_sorted.
  - rewrite erase_pointers.
    eapply sublist_NoDup; [done | apply sublist_delete].
Qed.

(** How a successful [request] can have ended. *)
Lemma request_cases st s out :
  request st s = Ok out →
  (s = 0 ∧ out = (NO_BUFFER, st))
  ∨ (s ≠ 0 ∧ out = alloc st s)
  ∨ (s ≠ 0 ∧ ∃ it k e b,
       free_ st !! it = Some (k, e) ∧ data_ st !! e = Some b
       ∧ out = reuse st it e b s).
Proof.
  unfold request. destruct (N.eqb_spec s 0) as [->|Hs].
  { intros [= <-]. by left. }
  destruct (N.eqb_spec (match_range_ st) 0) as [HR|HR].
  { intros [= <-]. right; by left. }
  assert (∀ it, take_free st it s = Ok out →
    ∃ it k e b, free_ st !! it = Some (k, e) ∧ data_ st !! e = Some b
                ∧ out = reuse st it e b s) as Htake.
  { unfold take_free. intros it Ht.
    destruct (free_ st !! it) as [[k e]|] eqn:Hit; [|done].
    destruct (data_ st !! e) as [b|] eqn:He; [|done].
    simplify_eq. by exists it, k, e, b. }
  simpl. repeat case_bool_decide.
  - intros Ht. right; right. eauto.
  - case_match; [done|]. intros Ht. right; right. eauto.
  - intros [= <-]. right; by left.
Qed.

Lemma wf_request st s id st' :
  wf st → request st s = Ok (id, st') → wf st'.
Proof.
  intros Hwf Hreq. apply request_cases in Hreq
    as [[_ Hout]|[[_ Hout]|(_ & it & k & e & b & Hit & Hb & Hout)]];
    apply (f_equal snd) in Hout; simpl in Hout; subst st'.
  - done.
  - by apply (wf_alloc st s).
  - by apply (wf_reuse st it k e b s).
Qed.

Lemma release_cases st id st' :
  release st id = Ok st' →
  (id = NO_BUFFER ∧ st' = st)
  ∨ (id ≠ NO_BUFFER ∧ ∃ b, data_ st !! N.to_nat id = Some b
       ∧ st' = {| match_range_ := match_range_ st;
                  free_ := multimap.insert (max_bytes_ b) (N.to_nat id) (free_ st);
                  data_ := data_ st |}).
Proof.
  unfold release, assertm. destruct (valid_id st id); simpl; [|done].
  destruct (N.eqb_spec id NO_BUFFER) as [->|Hne].
  { intros [= <-]. by left. }
  destruct (data_ st !! N.to_nat id) as [b|] eqn:Hb; [|done].
  intros [= <-]. right. eauto.
Qed.

Lemma wf_release st id st' :
  wf st → N.to_nat id ∉ multimap.pointers (free_ st) →
  release st id = Ok st' → wf st'.
Proof.
  intros (Hd & Hf & Hs & Hn) Hnotin Hrel.
  apply release_cases in Hrel as [[_ ->]|(_ & b & Hb & ->)]; [done|].
  repeat split; simpl.
  - done.
  - unfold free_ok in *. simpl. rewrite insert_perm.
    constructor; [simpl; by rewrite Hb | done].
  - by apply insert_sorted.
  - rewrite insert_pointers. by constructor.
Qed.

End invariant.

(** ** The search of [request] *)
Section search.
Implicit Types (st : buffer_assigner_t) (b : buffer_info_t).

(** Under the invariant the released slots are the free-list entries, and
    each is filed under its recorded size. *)
Lemma free_slot_entry st e sz :
  wf st → free_slot st e sz → ∃ j, free_ st !! j = Some (sz, e).
Proof.
  intros (_ & Hf & _ & _) [Hin Hsz].
  apply list_elem_of_fmap in Hin as ([k e'] & -> & Hin). simpl in Hsz.
  unfold free_ok in Hf. rewrite Forall_forall in Hf.
  specialize (Hf _ Hin). simpl in Hf.
  rewrite Hsz in Hf. simplify_eq. by apply list_elem_of_lookup_1.
Qed.

Lemma free_entry_recorded st j k e :
  wf st → free_ st !! j = Some (k, e) →
  ∃ b, data_ st !! e = Some b ∧ max_bytes_ b = k.
Proof.
  intros (_ & Hf & _ & _) Hj.
  unfold free_ok in Hf. rewrite Forall_forall in Hf.
  specialize (Hf _ (list_elem_of_lookup_2 _ _ _ Hj)). simpl in Hf.
  destruct (data_ st !! e) as [b|]; simplify_eq/=. eauto.
Qed.

Lemma take_free_reuse st it e b s :
  free_ st !! it = Some (max_bytes_ b, e) → data_ st !! e = Some b →
  take_free st it s = Ok (reuse st it e b s).
Proof. unfold take_free. by intros -> ->. Qed.

Lemma window_low_le R s : R ≠ 0 → s / R ≤ s.
Proof. intros. apply N.Div0.div_le_upper_bound. nia. Qed.

Lemma request_in_range st s :
  wf st → 0 < s → s * match_range_ st < SIZE_MODULUS →
  request_meets_policy st s.
Proof.
  intros Hwf Hs Hfit. pose proof Hwf as (_ & _ & Hsorted & _).
  unfold request_meets_policy, request.
  destruct (N.eqb_spec s 0) as [|_]; [lia|].
  destruct (N.eqb_spec (match_range_ st) 0) as [HR|HR].
  { eexists. split; [done|]. by apply spec_disabled. }
  unfold size_wrap. rewrite N.mod_small by done. simpl.
  pose proof (window_low_le _ s HR) as Hlow.
  assert (s ≤ s * match_range_ st) as Hhigh by nia.
  pose proof (multimap.lower_bound s (free_ st)) as _.
  pose proof (lower_bound_mono _ _ (free_ st) Hlow) as Hbm.
  pose proof (lower_upper_bound _ _ (free_ st) Hhigh) as Hme.
  pose proof (upper_bound_length (s * match_range_ st) (free_ st)) as Hel.
  pose proof (lower_bound_length s (free_ st)) as Hml.
  set (begin := multimap.lower_bound (s / match_range_ st) (free_ st)) in *.
  set (mid := multimap.lower_bound s (free_ st)) in *.
  set (end_ := multimap.upper_bound (s * match_range_ st) (free_ st)) in *.
  assert (∀ j e, free_ st !! j = Some e → (j < begin)%nat ↔ e.1 < s / match_range_ st)
    as Hbegin by (intros; by apply lower_bound_spec).
  assert (∀ j e, free_ st !! j = Some e → (j < mid)%nat ↔ e.1 < s)
    as Hmid by (intros; by apply lower_bound_spec).
  assert (∀ j e, free_ st !! j = Some e → (j < end_)%nat ↔ e.1 ≤ s * match_range_ st)
    as Hend by (intros; by apply upper_bound_spec).
  clearbody begin mid end_.
  repeat case_bool_decide.
  - (* an entry at or above the requested size, inside the window *)
    assert (mid < length (free_ st))%nat as Hlt by lia.
    destruct (lookup_lt_is_Some_2 _ _ Hlt) as [[k e] Hit].
    destruct (free_entry_recorded _ _ _ _ Hwf Hit) as (b & Hb & <-).
    eexists. split; [by apply take_free_reuse|].
    pose proof (Hmid _ _ Hit) as Hk1. pose proof (Hend _ _ Hit) as Hk2.
    cbn [fst snd] in *. apply spec_above; try done; [lia..|].
    intros e' sz' Hfree Hge.
    destruct (free_slot_entry _ _ _ Hwf Hfree) as [j Hj].
    pose proof (Hmid _ _ Hj) as Hj1. cbn [fst snd] in Hj1.
    apply (sorted_lookup _ mid j _ _ Hsorted ltac:(lia) Hit Hj).
  - (* nothing above: the nearest entry below the requested size *)
    destruct mid as [|it]; [lia|].
    assert (it < length (free_ st))%nat as Hlt by lia.
    destruct (lookup_lt_is_Some_2 _ _ Hlt) as [[k e] Hit].
    destruct (free_entry_recorded _ _ _ _ Hwf Hit) as (b & Hb & <-).
    eexists. split; [by apply take_free_reuse|].
    pose proof (Hmid _ _ Hit) as Hk1. pose proof (Hbegin _ _ Hit) as Hk2.
    cbn [fst snd] in *. apply spec_below; try done; [lia..| |].
    + intros e' sz' Hfree [Hge Hle].
      destruct (free_slot_entry _ _ _ Hwf Hfree) as [j Hj].
      pose proof (Hmid _ _ Hj) as Hj1. pose proof (Hend _ _ Hj) as Hj2.
      cbn [fst snd] in *. lia.
    + intros e' sz' Hfree Hsz.
      destruct (free_slot_entry _ _ _ Hwf Hfree) as [j Hj].
      pose proof (Hmid _ _ Hj) as Hj1. cbn [fst snd] in Hj1.
      apply (sorted_lookup _ j it _ _ Hsorted ltac:(lia) Hj Hit).
  - (* the window holds no released slot *)
    eexists. split; [done|]. apply spec_fresh; [done|].
    intros e' sz' Hfree [Hge Hle].
    destruct (free_slot_entry _ _ _ Hwf Hfree) as [j Hj].
    pose proof (Hbegin _ _ Hj) as Hj1. pose proof (Hend _ _ Hj) as Hj2.
    cbn [fst snd] in *. lia.
Qed.

End search.

(** ** Call sequences of a disciplined client *)

Section histories.
Implicit Types (st : buffer_assigner_t) (t : list event).

Lemma live_returned t id : id ∈ live t → id ∈ returned t.
Proof.
  revert id. induction t as [|[s i|i] t IH]; intros id; simpl; [done|..].
  - case_bool_decide; [by auto|]. rewrite !elem_of_cons.
    intros [->|Hin]; [by left | right; by apply IH].
  - rewrite list_elem_of_filter. intros [_ Hin]. by apply IH.
Qed.

Lemma live_not_sentinel t : NO_BUFFER ∉ live t.
Proof.
  induction t as [|[s i|i] t IH]; simpl.
  - apply not_elem_of_nil.
  - case_bool_decide; [done|]. rewrite not_elem_of_cons. done.
  - rewrite list_elem_of_filter. by intros [_ Hin].
Qed.

Lemma free_pointer_valid st p :
  wf st → p ∈ multimap.pointers (free_ st) → (p < length (data_ st))%nat.
Proof.
  intros (_ & Hf & _ & _) Hp.
  apply list_elem_of_fmap in Hp as ([k p'] & -> & Hin).
  unfold free_ok in Hf. rewrite Forall_forall in Hf.
  specialize (Hf _ Hin). simpl in *.
  destruct (data_ st !! p') eqn:Hl; [|done]. by eapply lookup_lt_Some.
Qed.

Lemma held_new R : held_inv (new_assigner R) [].
Proof.
  split; [apply wf_new|]. simpl. split; [constructor|].
  repeat split; intros ? Hin; by apply elem_of_nil in Hin.
Qed.

Lemma held_request st t s id st' :
  held_inv st t → request st s = Ok (id, st') →
  held_inv st' (EvRequest s id :: t)
  ∧ (id ≠ NO_BUFFER →
     (id ∉ live t) ∧ ((id ∉ returned t) ∨ EvRelease id ∈ t)).
Proof.
  intros (Hwf & Hnd & Hoff & Hrel & Hret) Hreq.
  pose proof (wf_request _ _ _ _ Hwf Hreq) as Hwf'.
  apply request_cases in Hreq
    as [[_ Hout]|[[_ Hout]|(_ & it & k & e & b & Hit & Hb & Hout)]].
  - (* size 0 *)
    injection Hout as Hid Hst. subst id st'. split; [|done].
    unfold held_inv. cbn [live returned].
    rewrite bool_decide_eq_true_2 by done.
    split; [done|]. repeat split; try done.
    intros p Hp. right. auto.
  - (* a new slot *)
    unfold alloc in Hout. injection Hout as Hid Hst. subst id st'.
    assert (N.of_nat (length (data_ st)) ∉ returned t) as Hfresh.
    { intros Hin. apply Hret in Hin. lia. }
    assert (N.of_nat (length (data_ st)) ∉ live t) as Hnl.
    { intros Hin. by apply Hfresh, live_returned. }
    split; [|by auto].
    unfold held_inv. cbn [live returned data_ free_].
    split; [done|]. rewrite length_app. cbn [length].
    case_bool_decide.
    + repeat split; try done.
      * intros p Hp. right. auto.
      * intros id Hin. apply Hret in Hin. lia.
    + repeat split.
      * by constructor.
      * intros id [->|Hin]%elem_of_cons; [|by auto].
        rewrite Nat2N.id. intros Hp%(free_pointer_valid st); [lia|done].
      * intros p Hp. right. auto.
      * intros id [->|Hin]%elem_of_cons; [lia|]. apply Hret in Hin. lia.
  - (* a released slot *)
    unfold reuse in Hout. injection Hout as Hid' Hst. subst id st'.
    pose proof Hwf as (Hd & _ & _ & Hn).
    pose proof (data_ok_lookup _ _ _ Hd Hb) as Hid.
    assert (e ∈ multimap.pointers (free_ st)) as He.
    { apply list_elem_of_fmap. exists (k, e).
      split; [done|]. by eapply list_elem_of_lookup_2. }
    assert (id_ b ∉ live t) as Hnl.
    { intros Hin. apply Hoff in Hin. rewrite Hid, Nat2N.id in Hin. done. }
    split; [|intros _; split; [done|]; right; rewrite Hid; by apply Hrel].
    assert (∀ p, p ∈ multimap.pointers (multimap.erase it (free_ st)) →
                 p ∈ multimap.pointers (free_ st) ∧ p ≠ e) as Hsub.
    { intros p Hp. apply list_elem_of_fmap in Hp as (x & -> & Hx).
      split; [|by eapply erase_other_pointer].
      apply list_elem_of_fmap. exists x. split; [done|].
      by eapply list_elem_of_delete_inv. }
    unfold held_inv. cbn [live returned data_ free_].
    split; [done|]. rewrite length_insert. case_bool_decide.
    + repeat split; try done.
      * intros id Hin [Hp _]%Hsub. by apply (Hoff id Hin).
      * intros p [Hp _]%Hsub. right. by apply Hrel.
    + repeat split.
      * by constructor.
      * intros id [->|Hin]%elem_of_cons Hp%Hsub.
        -- rewrite Hid, Nat2N.id in Hp. by destruct Hp.
        -- destruct Hp as [Hp _]. by apply (Hoff id Hin).
      * intros p [Hp _]%Hsub. right. by apply Hrel.
      * intros id [->|Hin]%elem_of_cons; [|by auto].
        rewrite Hid. apply lookup_lt_Some in Hb. lia.
Qed.

Lemma held_release st t id st' :
  held_inv st t → (id = NO_BUFFER ∨ id ∈ live t) →
  release st id = Ok st' →
  held_inv st' (EvRelease id :: t).
Proof.
  intros (Hwf & Hnd & Hoff & Hrel & Hret) Hheld Hr.
  pose proof Hr as [[-> ->]|(Hne & b & Hb & ->)]%release_cases.
  - unfold held_inv. cbn [live returned]. split; [done|].
    repeat split; try done.
    + by apply NoDup_filter.
    + intros id [_ Hin]%list_elem_of_filter. auto.
    + intros p Hp. right. auto.
  - destruct Hheld as [?|Hlive]; [done|].
    pose proof (Hoff _ Hlive) as Hnotin.
    split; [by eapply wf_release|]. cbn [live returned data_ free_].
    repeat split.
    + by apply NoDup_filter.
    + intros x [Hx Hin]%list_elem_of_filter.
      rewrite insert_pointers, not_elem_of_cons. split; [lia|auto].
    + intros p. rewrite insert_pointers.
      intros [->|Hp]%elem_of_cons; [rewrite N2Nat.id; left|right; auto].
    + done.
Qed.

Lemma run_extends st t ops t' st' :
  run st t ops = Ok (t', st') → ∃ t2, t' = t2 ++ t.
Proof.
  revert st t. induction ops as [|[s|id] ops IH]; intros st t; simpl.
  - intros [= <- <-]. by exists [].
  - destruct (request st s) as [[id st1]| |]; simpl; [|done..].
    intros [t2 ->]%IH. exists (t2 ++ [EvRequest s id]). by rewrite <- app_assoc.
  - destruct (release st id) as [st1| |]; simpl; [|done..].
    intros [t2 ->]%IH. exists (t2 ++ [EvRelease id]). by rewrite <- app_assoc.
Qed.

Lemma disciplined_earlier t2 t : disciplined (t2 ++ t) → disciplined t.
Proof.
  induction t2 as [|[s i|i] t2 IH]; simpl; [done|done|].
  intros [_ Hrest]. auto.
Qed.

Lemma run_sound st t ops t' st' :
  held_inv st t → sound_history t →
  run st t ops = Ok (t', st') → disciplined t' →
  held_inv st' t' ∧ sound_history t'.
Proof.
  revert st t. induction ops as [|[s|id] ops IH]; intros st t Hinv Hsound; simpl.
  - by intros [= <- <-].
  - destruct (request st s) as [[id st1]| |] eqn:Hreq; simpl; [|done..].
    destruct (held_request _ _ _ _ _ Hinv Hreq) as [Hinv1 Hissue].
    apply IH; [done|]. simpl. split; [apply Hinv1|done].
  - destruct (release st id) as [st1| |] eqn:Hrel; simpl; [|done..].
    intros Hrun Hdisc. pose proof (run_extends _ _ _ _ _ Hrun) as [t2 ->].
    pose proof (disciplined_earlier _ _ Hdisc) as [Hheld _].
    pose proof (held_release _ _ _ _ Hinv Hheld Hrel) as Hinv1.
    apply (IH st1 (EvRelease id :: t)); try done.
    simpl. split; [apply Hinv1|done].
Qed.

Lemma sound_history_moment t2 t1 :
  sound_history (t2 ++ t1) →
  NoDup (live t1)
  ∧ ∀ s id t0, t1 = EvRequest s id :: t0 → id ≠ NO_BUFFER →
      (id ∉ live t0) ∧ ((id ∉ returned t0) ∨ EvRelease id ∈ t0).
Proof.
  induction t2 as [|ev t2 IH]; simpl.
  - destruct t1 as [|ev t0]; simpl.
    + intros _. split; [constructor|done].
    + intros (Hnd & Hev & _). split; [done|].
      intros s id ? [= -> <-]. done.
  - intros (_ & _ & Hrest). auto.
Qed.

End histories.

(** ** Recorded sizes *)
Section sizes.
Implicit Types (st : buffer_assigner_t) (b : buffer_info_t).

Lemma valid_id_lt st id :
  id ≠ NO_BUFFER →
  valid_id st id = true ↔ (N.to_nat id < length (data_ st))%nat.
Proof.
  intros Hne. unfold valid_id.
  rewrite orb_true_iff, N.ltb_lt, N.eqb_eq. split; [intros [?|?]|]; [lia|done|lia].
Qed.

Lemma query_size_slot st id b :
  id ≠ NO_BUFFER → data_ st !! N.to_nat id = Some b →
  query_size st id = Ok (max_bytes_ b).
Proof.
  intros Hne Hb. unfold query_size.
  rewrite (proj2 (valid_id_lt st id Hne)) by (by eapply lookup_lt_Some).
  simpl. rewrite (proj2 (N.eqb_neq _ _) Hne). by rewrite Hb.
Qed.

Lemma query_size_cases st id v :
  query_size st id = Ok v →
  (id = NO_BUFFER ∧ v = 0)
  ∨ (id ≠ NO_BUFFER ∧ ∃ b, data_ st !! N.to_nat id = Some b ∧ v = max_bytes_ b).
Proof.
  unfold query_size, assertm. destruct (valid_id st id); simpl; [|done].
  destruct (N.eqb_spec id NO_BUFFER) as [->|Hne].
  { intros [= <-]. by left. }
  destruct (data_ st !! N.to_nat id) as [b|] eqn:Hb; [|done].
  intros [= <-]. right. eauto.
Qed.

Lemma query_size_sentinel st : query_size st NO_BUFFER = Ok 0.
Proof.
  unfold query_size, valid_id. rewrite N.eqb_refl, orb_true_r. done.
Qed.

Lemma release_sentinel st : release st NO_BUFFER = Ok st.
Proof.
  unfold release, valid_id. rewrite N.eqb_refl, orb_true_r. done.
Qed.

Lemma release_slot st id b :
  id ≠ NO_BUFFER → data_ st !! N.to_nat id = Some b →
  release st id =
  Ok {| match_range_ := match_range_ st;
        free_ := multimap.insert (max_bytes_ b) (N.to_nat id) (free_ st);
        data_ := data_ st |}.
Proof.
  intros Hne Hb. unfold release.
  rewrite (proj2 (valid_id_lt st id Hne)) by (by eapply lookup_lt_Some).
  simpl. rewrite (proj2 (N.eqb_neq _ _) Hne). by rewrite Hb.
Qed.

Lemma request_cell st s id st' p b :
  request st s = Ok (id, st') → data_ st !! p = Some b →
  ∃ b', data_ st' !! p = Some b' ∧ cell_grows b b'.
Proof.
  intros Hreq Hp. apply request_cases in Hreq
    as [[_ Hout]|[[_ Hout]|(_ & it & k & e & b0 & Hit & Hb & Hout)]];
    apply (f_equal snd) in Hout; simpl in Hout; subst st'; simpl.
  - exists b. by split.
  - exists b. split; [by apply lookup_app_l_Some | by split].
  - destruct (decide (p = e)) as [->|Hne].
    + simplify_eq. eexists. split.
      * apply list_lookup_insert_eq. by eapply lookup_lt_Some.
      * split; simpl; [done|lia].
    + exists b. rewrite list_lookup_insert_ne by done. by split.
Qed.

Lemma release_data st id st' : release st id = Ok st' → data_ st' = data_ st.
Proof. by intros [[_ ->]|(_ & b & _ & ->)]%release_cases. Qed.

Lemma run_cell st t ops t' st' p b :
  run st t ops = Ok (t', st') → data_ st !! p = Some b →
  ∃ b', data_ st' !! p = Some b' ∧ cell_grows b b'.
Proof.
  revert st t b. induction ops as [|[s|id] ops IH]; intros st t b; simpl.
  - intros [= <- <-] Hp. exists b. by split.
  - destruct (request st s) as [[id st1]| |] eqn:Hreq; simpl; [|done..].
    intros Hrun Hp.
    destruct (request_cell _ _ _ _ _ _ Hreq Hp) as (b1 & Hp1 & Hid1 & Hsz1).
    destruct (IH _ _ _ Hrun Hp1) as (b' & Hp' & Hid' & Hsz').
    exists b'. split; [done|]. split; [congruence|lia].
  - destruct (release st id) as [st1| |] eqn:Hrel; simpl; [|done..].
    intros Hrun Hp. rewrite <- (release_data _ _ _ Hrel) in Hp. eauto.
Qed.

Lemma run_data_ok st t ops t' st' :
  data_ok st → run st t ops = Ok (t', st') → data_ok st'.
Proof.
  revert st t. induction ops as [|[s|id] ops IH]; intros st t Hd; simpl.
  - by intros [= <- <-].
  - destruct (request st s) as [[id st1]| |] eqn:Hreq; simpl; [|done..].
    apply IH. apply request_cases in Hreq
      as [[_ Hout]|[[_ Hout]|(_ & it & k & e & b & Hit & Hb & Hout)]];
      apply (f_equal snd) in Hout; simpl in Hout; subst st1.
    + done.
    + by apply (data_ok_alloc st s).
    + by apply (data_ok_reuse st it e b s).
  - destruct (release st id) as [st1| |] eqn:Hrel; simpl; [|done..].
    apply IH. unfold data_ok. by rewrite (release_data _ _ _ Hrel).
Qed.

Lemma data_ok_new R : data_ok (new_assigner R).
Proof. done. Qed.

Lemma run_query_size st t ops t' st' id v :
  run st t ops = Ok (t', st') → query_size st id = Ok v →
  ∃ v', query_size st' id = Ok v' ∧ v ≤ v'.
Proof.
  intros Hrun [[-> ->]|(Hne & b & Hb & ->)]%query_size_cases.
  - exists 0. split; [apply query_size_sentinel|done].
  - destruct (run_cell _ _ _ _ _ _ _ Hrun Hb) as (b' & Hb' & _ & Hsz).
    exists (max_bytes_ b'). split; [by apply query_size_slot|done].
Qed.

Lemma reuse_query_size st s id st' v :
  data_ok st → id ≠ NO_BUFFER →
  request st s = Ok (id, st') → query_size st id = Ok v →
  query_size st' id = Ok (N.max v s).
Proof.
  intros Hd Hne Hreq [[-> ->]|(_ & b & Hb & ->)]%query_size_cases; [done|].
  apply request_cases in Hreq
    as [[_ Hout]|[[_ Hout]|(_ & it & k & e & b0 & Hit & Hb0 & Hout)]].
  - by injection Hout as Hid _.
  - unfold alloc in Hout. injection Hout as Hid _.
    apply lookup_lt_Some in Hb. lia.
  - unfold reuse in Hout. injection Hout as Hid Hst. subst st'.
    pose proof (data_ok_lookup _ _ _ Hd Hb0) as Hid0.
    assert (N.to_nat id = e) as He by lia. subst e. simplify_eq.
    rewrite N.max_comm.
    apply (query_size_slot _ _ (mk_buffer_info (id_ b0) _)); [done|].
    simpl. apply list_lookup_insert_eq. by eapply lookup_lt_Some.
Qed.

End sizes.

(** ** The diagnostic text *)
Section memory_info.

Lemma get_memory_info_assigned mp val info :
  buffer_assignments_ mp !! val = Some info →
  get_memory_info mp val = (memory_info_form (kind_ info) (index_ info), mp).
Proof.
  unfold get_memory_info. intros ->. by destruct (kind_ info).
Qed.

Lemma memory_info_form_inj k i k' i' :
  memory_info_form k i = memory_info_form k' i' → k = k' ∧ i = i'.
Proof.
  unfold to_string.
  destruct k, k'; simpl; intros Heq; try discriminate;
    (split; [done|]); simplify_eq; by apply (inj pretty).
Qed.

Lemma memory_info_form_nonempty k i : memory_info_form k i ≠ "".
Proof. by destruct k. Qed.

End memory_info.

(** * The documented behaviour *)

(** Calls of a disciplined client return: a request whose product fits
    [size_t], and a release of a held slot or of the sentinel. *)
Lemma request_returns st t s :
  held_inv st t → s * match_range_ st < SIZE_MODULUS →
  ∃ id st', request st s = Ok (id, st').
Proof.
  intros (Hwf & _) Hfit. destruct (N.eq_dec s 0) as [->|Hs].
  { by exists NO_BUFFER, st. }
  destruct (request_in_range st s Hwf ltac:(lia) Hfit) as ([id st'] & Hreq & _).
  eauto.
Qed.

Lemma release_returns st t id :
  held_inv st t → (id = NO_BUFFER ∨ id ∈ live t) →
  ∃ st', release st id = Ok st'.
Proof.
  intros (_ & _ & _ & _ & Hret) [->|Hlive].
  { exists st. apply release_sentinel. }
  pose proof (live_not_sentinel t) as Hns.
  assert (id ≠ NO_BUFFER) as Hne by (by intros ->).
  apply live_returned, Hret in Hlive.
  destruct (lookup_lt_is_Some_2 (data_ st) (N.to_nat id)) as [b Hb]; [lia|].
  eexists. by apply release_slot.
Qed.

Lemma run_match_range st t ops t' st' :
  run st t ops = Ok (t', st') → match_range_ st' = match_range_ st.
Proof.
  revert st t. induction ops as [|[s|id] ops IH]; intros st t; simpl.
  - by intros [= <- <-].
  - destruct (request st s) as [[id st1]| |] eqn:Hreq; simpl; [|done..].
    intros ->%IH. apply request_cases in Hreq
      as [[_ Hout]|[[_ Hout]|(_ & it & k & e & b & Hit & Hb & Hout)]];
      apply (f_equal snd) in Hout; simpl in Hout; by subst st1.
  - destruct (release st id) as [st1| |] eqn:Hrel; simpl; [|done..].
    intros ->%IH.
    by apply release_cases in Hrel as [[_ ->]|(_ & b & _ & ->)].
Qed.

Lemma huge_state_reached :
  run (new_assigner 16) [] [Request (2 ^ 58); Release 0]
  = Ok ([EvRelease 0; EvRequest (2 ^ 58) 0], huge_state).
Proof. vm_compute. reflexivity. Qed.

Lemma small_state_reached :
  run (new_assigner 16) [] [Request 100; Release 0]
  = Ok ([EvRelease 0; EvRequest 100 0], small_state).
Proof. vm_compute. reflexivity. Qed.

Lemma release_after_request_disciplined s :
  disciplined [EvRelease 0; EvRequest s 0].
Proof.
  simpl. split; [|done]. right. by left.
Qed.

(** C1: the code departs from the documented search where
    [size * match_range_] leaves [size_t].  With match range 16, after
    [request(2^58)] and [release(0)] the call [request(2^60)] computes the
    upper bound of [2^64 mod 2^64 = 0], which lies before
    [lower_bound(2^60) = end()]; the first loop runs and dereferences
    [end()].  The released slot of size [2^58] is inside the window
    [[2^56, 2^64]] and should be returned; the call neither returns it nor
    allocates. *)
Lemma request_policy_fails_on_wrap :
  run (new_assigner 16) [] [Request (2 ^ 58); Release 0]
    = Ok ([EvRelease 0; EvRequest (2 ^ 58) 0], huge_state)
  ∧ disciplined [EvRelease 0; EvRequest (2 ^ 58) 0]
  ∧ 0 < 2 ^ 60
  ∧ free_slot huge_state 0 (2 ^ 58)
  ∧ in_window 16 (2 ^ 60) (2 ^ 58)
  ∧ request huge_state (2 ^ 60) = Undefined
  ∧ ¬ request_meets_policy huge_state (2 ^ 60).
Proof.
  split; [apply huge_state_reached|].
  split; [apply release_after_request_disciplined|].
  split; [done|].
  split; [split; [by left | done]|].
  split; [by vm_compute|].
  assert (request huge_state (2 ^ 60) = Undefined) as Hundef
    by (vm_compute; reflexivity).
  split; [done|]. intros (out & Hout & _). by rewrite Hundef in Hout.
Qed.

(** Wrap-around also shows without undefined behaviour: for
    [request(3 * 2^59)] the product is [2^64 + 2^63] and wraps to [2^63],
    so the released slot of size [2^63 + 1], which the window
    [[3 * 2^55, 3 * 2^63]] contains, is passed over and a new slot is
    allocated. *)
Lemma wrap_passes_over_window_slot :
  run (new_assigner 16) [] [Request (2 ^ 63 + 1); Release 0]
    = Ok ([EvRelease 0; EvRequest (2 ^ 63 + 1) 0], half_state)
  ∧ free_slot half_state 0 (2 ^ 63 + 1)
  ∧ in_window 16 (3 * 2 ^ 59) (2 ^ 63 + 1)
  ∧ request half_state (3 * 2 ^ 59) = Ok (alloc half_state (3 * 2 ^ 59))
  ∧ ¬ request_meets_policy half_state (3 * 2 ^ 59).
Proof.
  assert (free_slot half_state 0 (2 ^ 63 + 1)) as Hslot
    by (split; [by left | done]).
  assert (in_window 16 (3 * 2 ^ 59) (2 ^ 63 + 1)) as Hwin by (by vm_compute).
  assert (request half_state (3 * 2 ^ 59) = Ok (alloc half_state (3 * 2 ^ 59)))
    as Hreq by (vm_compute; reflexivity).
  split; [vm_compute; reflexivity|]. do 3 (split; [done|]).
  intros (out & Hout & Hspec). rewrite Hreq in Hout.
  injection Hout as <-.
  remember (alloc half_state (3 * 2 ^ 59)) as out eqn:Heq.
  assert (∀ it e b, half_state.(free_) !! it = Some (max_bytes_ b, e) →
            reuse half_state it e b (3 * 2 ^ 59) ≠ out) as Hne.
  { intros [|it] e b Hit Hout; [|done]. rewrite Heq in Hout.
    apply (f_equal (λ o, length (free_ o.2))) in Hout. done. }
  destruct Hspec as [HR | it e b HR Hit Hb Hge Hle Hmin
                    | it e b HR Hit Hb Hlo Hlt Hnone Hmax | HR Hnone].
  - done.
  - by eapply Hne.
  - by eapply Hne.
  - by apply (Hnone _ _ Hslot).
Qed.

(** Read with the wrapped product as the upper end of the window, the
    search is off as well: with slots of sizes [2^58] and [2^61] released,
    [request(2^60)] has the upper bound [2^64 mod 2^64 = 0] and still
    returns the slot of size [2^61]. *)
Lemma wrap_returns_slot_above_wrapped_bound :
  ∃ t st st',
    run (new_assigner 16) []
      [Request (2 ^ 58); Request (2 ^ 61); Release 0; Release 1] = Ok (t, st)
    ∧ disciplined t
    ∧ free_ st = [(2 ^ 58, 0%nat); (2 ^ 61, 1%nat)]
    ∧ size_wrap (2 ^ 60 * match_range_ st) = 0
    ∧ request st (2 ^ 60) = Ok (1, st')
    ∧ query_size st' 1 = Ok (2 ^ 61).
Proof.
  do 3 eexists. split; [vm_compute; reflexivity|].
  split.
  { simpl. split; [right; by left|]. split; [right; right; left | done]. }
  split; [reflexivity|]. split; [reflexivity|].
  split; vm_compute; reflexivity.
Qed.

(** Why the client has to be disciplined: releasing slot 0 twice files it
    twice; [request(200)] takes one entry and raises the slot to 200 while
    the other entry stays under 100, and [request(10)], whose window is
    [[0, 160]], is then handed slot 0 although its recorded size is 200. *)
Lemma double_release_leaves_stale_entry :
  ∃ t st st',
    run (new_assigner 16) [] [Request 100; Release 0; Release 0; Request 200]
      = Ok (t, st)
    ∧ ¬ disciplined t
    ∧ free_ st = [(100, 0%nat)]
    ∧ query_size st 0 = Ok 200
    ∧ ¬ in_window 16 10 200
    ∧ request st 10 = Ok (0, st').
Proof.
  do 3 eexists. split; [vm_compute; reflexivity|].
  split.
  { simpl. intros ([Hs|Hin] & _); [done|]. by apply elem_of_nil in Hin. }
  split; [reflexivity|]. split; [vm_compute; reflexivity|].
  split; [|vm_compute; reflexivity].
  unfold in_window. intros [_ Hhi]. by vm_compute in Hhi.
Qed.

(** X16: on an assigner reached by a disciplined client, for every
    [request(s)] with [s > 0] whose product [s * R] fits [size_t]: if
    [R = 0] a fresh slot is allocated; otherwise the call returns the
    released slot of smallest recorded size in [[s, s * R]], else the
    released slot of largest recorded size in [[s / R, s)], and allocates a
    fresh slot only when no released slot has its recorded size in
    [[s / R, s * R]].  Here [s / R] is the quotient of [size_t], rounded
    down: with [R = 16] a slot of size 6 is inside the window of
    [request(100)]. *)
Theorem request_policy_without_wrap R ops t st s :
  run (new_assigner R) [] ops = Ok (t, st) → disciplined t →
  0 < s → s * R < SIZE_MODULUS →
  match_range_ st = R ∧ request_meets_policy st s.
Proof.
  intros Hrun Hdisc Hs Hfit.
  pose proof (run_match_range _ _ _ _ _ Hrun) as HR. simpl in HR.
  split; [done|].
  destruct (run_sound _ _ _ _ _ (held_new R) I Hrun Hdisc) as [(Hwf & _) _].
  apply request_in_range; [done|done|by rewrite HR].
Qed.

Lemma request_policy_without_wrap_witness :
  match_range_ small_state = 16 ∧ request_meets_policy small_state 90.
Proof.
  apply (request_policy_without_wrap 16 [Request 100; Release 0]
           [EvRelease 0; EvRequest 100 0]).
  - vm_compute. reflexivity.
  - simpl. split; [|exact I]. right. vm_compute. left.
  - reflexivity.
  - reflexivity.
Defined.

(** C2: with match range 16, [request(100)] returns id 0; after
    [release(0)], [request(90)] returns id 0 again and [query_size(0)] is
    100; [request(5000)] then returns the new id 1.  [alloc] always returns
    the number of slots created so far, so ids are 0, 1, 2, ... in
    allocation order, and with two slots created the next one is 2. *)
Theorem scenario_match_range_16 :
  ∃ a1 a2 a3 a4,
    request (new_assigner 16) 100 = Ok (0, a1)
    ∧ release a1 0 = Ok a2
    ∧ request a2 90 = Ok (0, a3)
    ∧ query_size a3 0 = Ok 100
    ∧ request a3 5000 = Ok (1, a4)
    ∧ (∀ p : positive, ∃ a5, request a4 (N.pos p) = Ok (2, a5))
    ∧ (∀ st s,
         (alloc st s).1 = N.of_nat (length (data_ st))
         ∧ data_ (alloc st s).2
           = data_ st ++ [mk_buffer_info (N.of_nat (length (data_ st))) s])
    ∧ (∀ R fr b0 b1 s,
         (alloc {| match_range_ := R; free_ := fr; data_ := [b0; b1] |} s).1 = 2).
Proof.
  do 4 eexists.
  split; [vm_compute; reflexivity|].
  split; [vm_compute; reflexivity|].
  split; [vm_compute; reflexivity|].
  split; [vm_compute; reflexivity|].
  split; [vm_compute; reflexivity|].
  split; [|split; [done|done]].
  intros p. eexists. reflexivity.
Qed.

(** C3: along every call sequence of a disciplined client, on an assigner
    of any match range, the slots held at any moment are pairwise distinct,
    and every non-sentinel id a request returns is not held at that moment
    and is either an id no request returned before or one that was
    released before. *)
Theorem held_slots_are_exclusive R ops t st :
  run (new_assigner R) [] ops = Ok (t, st) → disciplined t →
  ∀ t2 t1, t = t2 ++ t1 →
    NoDup (live t1)
    ∧ ∀ s id t0, t1 = EvRequest s id :: t0 → id ≠ NO_BUFFER →
        (id ∉ live t0) ∧ ((id ∉ returned t0) ∨ EvRelease id ∈ t0).
Proof.
  intros Hrun Hdisc t2 t1 ->.
  destruct (run_sound _ _ _ _ _ (held_new R) I Hrun Hdisc) as [_ Hsound].
  by apply (sound_history_moment t2 t1).
Qed.

Lemma held_slots_are_exclusive_witness :
  NoDup (live [EvRequest 90 0; EvRelease 0; EvRequest 50 1; EvRequest 100 0])
  ∧ ∀ s id t0,
      [EvRequest 90 0; EvRelease 0; EvRequest 50 1; EvRequest 100 0]
        = EvRequest s id :: t0 →
      id ≠ NO_BUFFER →
      (id ∉ live t0) ∧ ((id ∉ returned t0) ∨ EvRelease id ∈ t0).
Proof.
  apply (held_slots_are_exclusive 16
           [Request 100; Request 50; Release 0; Request 90]
           [EvRequest 90 0; EvRelease 0; EvRequest 50 1; EvRequest 100 0]
           {| match_range_ := 16; free_ := [];
              data_ := [mk_buffer_info 0 100; mk_buffer_info 1 50] |}
           ltac:(vm_compute; reflexivity)
           (conj (or_intror (list_elem_of_further _ _ _ (list_elem_of_here _ _))) I)
           []).
  reflexivity.
Defined.

(** C4: from any state a call sequence has reached, [query_size(id)] of an
    existing slot never decreases along any further sequence of calls, and
    a request of [s] bytes that returns an existing slot leaves its
    recorded size at the maximum of the old recorded size and [s]. *)
Theorem recorded_size_only_grows R ops0 t0 st :
  run (new_assigner R) [] ops0 = Ok (t0, st) →
  (∀ ops t' st' id v,
     run st t0 ops = Ok (t', st') → query_size st id = Ok v →
     ∃ v', query_size st' id = Ok v' ∧ v ≤ v')
  ∧ (∀ s id st' v,
       id ≠ NO_BUFFER →
       request st s = Ok (id, st') → query_size st id = Ok v →
       query_size st' id = Ok (N.max v s)).
Proof.
  intros Hrun0. split.
  - intros ops t' st' id v. apply run_query_size.
  - intros s id st' v. apply reuse_query_size.
    by apply (run_data_ok _ _ _ _ _ (data_ok_new R) Hrun0).
Qed.

Lemma recorded_size_only_grows_witness :
  query_size {| match_range_ := 16; free_ := [];
                data_ := [mk_buffer_info 0 (N.max 100 200)] |} 0
  = Ok (N.max 100 200).
Proof.
  apply (proj2 (recorded_size_only_grows 16 [Request 100; Release 0]
                  [EvRelease 0; EvRequest 100 0] small_state
                  ltac:(vm_compute; reflexivity))
           200 0 _ 100).
  - discriminate.
  - vm_compute. reflexivity.
  - vm_compute. reflexivity.
Defined.

(** C5: [request(0)] returns the sentinel and leaves the assigner as it
    was; [release] of the sentinel leaves the assigner as it was. *)
Theorem sentinel_is_inert st :
  request st 0 = Ok (NO_BUFFER, st) ∧ release st NO_BUFFER = Ok st.
Proof. split; [done | apply release_sentinel]. Qed.

(** C6: [release(id)] of an allocated, non-sentinel slot files it in the
    free list under the size [query_size(id)] reports at that moment.  In
    the planner's assigner, [request(100)], [release(0)], [request(90)],
    [release(0)] leaves slot 0 filed under 100, not 90, and a later
    [request(1600)], whose window starts at 100, finds it. *)
Theorem release_files_under_recorded_size st id b :
  id ≠ NO_BUFFER → data_ st !! N.to_nat id = Some b →
  query_size st id = Ok (max_bytes_ b)
  ∧ (∃ st', release st id = Ok st'
       ∧ data_ st' = data_ st
       ∧ free_ st' = multimap.insert (max_bytes_ b) (N.to_nat id) (free_ st)
       ∧ (max_bytes_ b, N.to_nat id) ∈ free_ st'
       ∧ free_slot st' (N.to_nat id) (max_bytes_ b))
  ∧ (∃ t st4 st5,
       run (new_assigner 16) [] [Request 100; Release 0; Request 90; Release 0]
         = Ok (t, st4)
       ∧ free_ st4 = [(100, 0%nat)]
       ∧ request st4 1600 = Ok (0, st5)).
Proof.
  intros Hne Hb. split; [by apply query_size_slot|]. split.
  - eexists. split; [by apply release_slot|]. simpl.
    assert ((max_bytes_ b, N.to_nat id)
              ∈ multimap.insert (max_bytes_ b) (N.to_nat id) (free_ st)) as Hin.
    { rewrite insert_perm. left. }
    repeat split; try done.
    + apply list_elem_of_fmap. by exists (max_bytes_ b, N.to_nat id).
    + simpl. by rewrite Hb.
  - do 3 eexists. split; [vm_compute; reflexivity|].
    split; [reflexivity | vm_compute; reflexivity].
Qed.

Lemma release_files_under_recorded_size_witness :
  query_size {| match_range_ := 16; free_ := [];
                data_ := [mk_buffer_info 0 100] |} 0 = Ok 100
  ∧ (∃ st', release {| match_range_ := 16; free_ := [];
                       data_ := [mk_buffer_info 0 100] |} 0 = Ok st'
       ∧ data_ st' = [mk_buffer_info 0 100]
       ∧ free_ st' = multimap.insert 100 0%nat []
       ∧ (100, 0%nat) ∈ free_ st'
       ∧ free_slot st' 0%nat 100)
  ∧ (∃ t st4 st5,
       run (new_assigner 16) [] [Request 100; Release 0; Request 90; Release 0]
         = Ok (t, st4)
       ∧ free_ st4 = [(100, 0%nat)]
       ∧ request st4 1600 = Ok (0, st5)).
Proof.
  apply (release_files_under_recorded_size
           {| match_range_ := 16; free_ := []; data_ := [mk_buffer_info 0 100] |}
           0 (mk_buffer_info 0 100)).
  - discriminate.
  - reflexivity.
Defined.

(** C7: [release] and [query_size] of an id that is not below the number
    of allocated slots stop on the assertion "invalid buffer id", unless
    the id is the sentinel, which both accept: [release] does nothing and
    [query_size] answers 0. *)
Theorem unknown_id_is_asserted st id :
  N.of_nat (length (data_ st)) ≤ id →
  (id ≠ NO_BUFFER →
     release st id = AssertFail "invalid buffer id"
     ∧ query_size st id = AssertFail "invalid buffer id")
  ∧ (id = NO_BUFFER →
     release st id = Ok st ∧ query_size st id = Ok 0).
Proof.
  intros Hge. split.
  - intros Hne. unfold release, query_size, valid_id.
    rewrite (proj2 (N.ltb_ge _ _) Hge), (proj2 (N.eqb_neq _ _) Hne). done.
  - intros ->. split; [apply release_sentinel | apply query_size_sentinel].
Qed.

Lemma unknown_id_is_asserted_witness :
  (7 ≠ NO_BUFFER →
     release small_state 7 = AssertFail "invalid buffer id"
     ∧ query_size small_state 7 = AssertFail "invalid buffer id")
  ∧ (7 = NO_BUFFER →
     release small_state 7 = Ok small_state ∧ query_size small_state 7 = Ok 0).
Proof.
  apply (unknown_id_is_asserted small_state 7). vm_compute. discriminate.
Defined.

(** C9: for a value with a recorded assignment, [get_memory_info] returns
    the text of the documented form for its kind and index --
    [persistent_<i>], [temporary_<i>], [external_in_<i>] or
    [external_out_<i>] -- and that text is of no other form. *)
Theorem memory_info_of_assigned_value mp val info :
  buffer_assignments_ mp !! val = Some info →
  (get_memory_info mp val).1 = memory_info_form (kind_ info) (index_ info)
  ∧ (∀ k i, (get_memory_info mp val).1 = memory_info_form k i ↔
            k = kind_ info ∧ i = index_ info)
  ∧ memory_info_form internal_persistent (index_ info)
    = "persistent_" +:+ to_string (index_ info)
  ∧ memory_info_form internal_temporary (index_ info)
    = "temporary_" +:+ to_string (index_ info)
  ∧ memory_info_form external_input (index_ info)
    = "external_in_" +:+ to_string (index_ info)
  ∧ memory_info_form external_output (index_ info)
    = "external_out_" +:+ to_string (index_ info).
Proof.
  intros Hassigned. rewrite (get_memory_info_assigned _ _ _ Hassigned). simpl.
  split; [done|]. split; [|done].
  intros k i. split.
  - intros Heq. symmetry in Heq. by apply memory_info_form_inj in Heq as [-> ->].
  - by intros [-> ->].
Qed.

Lemma memory_info_of_assigned_value_witness :
  (get_memory_info sample_planner 5).1 = "temporary_12".
Proof.
  etrans.
  - apply (memory_info_of_assigned_value sample_planner 5
             (mk_assign_info internal_temporary 12)).
    vm_compute. reflexivity.
  - vm_compute. reflexivity.
Defined.

(** C10: for a value with no recorded assignment, [get_memory_info]
    returns the empty text, which is none of the four documented forms,
    and hands the planner back unchanged. *)
Theorem memory_info_of_unassigned_value mp val :
  buffer_assignments_ mp !! val = None →
  get_memory_info mp val = ("", mp)
  ∧ ∀ k i, memory_info_form k i ≠ (get_memory_info mp val).1.
Proof.
  unfold get_memory_info. intros ->. split; [done|].
  intros k i. apply memory_info_form_nonempty.
Qed.

Lemma memory_info_of_unassigned_value_witness :
  get_memory_info (new_memory_planner 1) 7 = ("", new_memory_planner 1)
  ∧ ∀ k i, memory_info_form k i ≠ (get_memory_info (new_memory_planner 1) 7).1.
Proof.
  apply (memory_info_of_unassigned_value (new_memory_planner 1) 7).
  vm_compute. reflexivity.
Defined.

(** * Further properties of the code *)

(** ** More on the ordered multimap *)
Section multimap_insert_facts.
Import multimap.
Implicit Types (m : multimap.t) (k : N) (e : N * nat).

Lemma lower_bound_insert k p m : lower_bound k (insert k p m) = lower_bound k m.
Proof.
  induction m as [|e m IH]; simpl.
  { by rewrite (proj2 (N.leb_le k k)) by lia. }
  destruct (N.ltb_spec k e.1), (N.leb_spec k e.1); simpl; try lia.
  - by rewrite (proj2 (N.leb_le k k)) by lia.
  - by rewrite (proj2 (N.leb_le k e.1)) by lia.
  - rewrite (proj2 (N.leb_gt k e.1)) by lia. by rewrite IH.
Qed.

Lemma lower_eq_upper_bound k m :
  (∀ e, e ∈ m → e.1 ≠ k) → lower_bound k m = upper_bound k m.
Proof.
  induction m as [|e m IH]; simpl; intros Hne; [done|].
  pose proof (Hne e ltac:(left)) as He.
  destruct (N.ltb_spec k e.1), (N.leb_spec k e.1); try lia.
  f_equal. apply IH. intros e' He'. apply Hne. by right.
Qed.

Lemma insert_lookup_upper_bound k p m :
  insert k p m !! upper_bound k m = Some (k, p).
Proof.
  induction m as [|e m IH]; simpl; [done|].
  destruct (N.ltb_spec k e.1); simpl; done.
Qed.

Lemma erase_insert_upper_bound k p m :
  erase (upper_bound k m) (insert k p m) = m.
Proof.
  unfold erase. induction m as [|e m IH]; simpl; [done|].
  destruct (N.ltb_spec k e.1); simpl; [done|]. by rewrite IH.
Qed.

Lemma insert_lookup_before k p m j :
  (j < upper_bound k m)%nat → insert k p m !! j = m !! j.
Proof.
  revert j. induction m as [|e m IH]; simpl; intros j Hj; [lia|].
  destruct (N.ltb_spec k e.1); [lia|].
  destruct j as [|j]; simpl; [done|]. apply IH. lia.
Qed.

(** In an ordered list that holds the key [k], the entry at
    [lower_bound k] carries exactly [k]. *)
Lemma lower_bound_hit k m e0 :
  sorted m → e0 ∈ m → e0.1 = k →
  ∃ p, m !! lower_bound k m = Some (k, p).
Proof.
  intros Hs Hin Hk. apply list_elem_of_lookup_1 in Hin as [j Hj].
  pose proof (lower_bound_spec k m j e0 Hs Hj) as Hspec.
  assert (lower_bound k m ≤ j)%nat as Hle by lia.
  destruct (lookup_lt_is_Some_2 m (lower_bound k m)) as [[k' p] Hl].
  { apply lookup_lt_Some in Hj. lia. }
  pose proof (lower_bound_spec k m _ _ Hs Hl) as Hspec'.
  pose proof (sorted_lookup m _ _ _ _ Hs Hle Hl Hj) as Hord.
  simpl in *. exists p. rewrite Hl. do 2 f_equal. lia.
Qed.

End multimap_insert_facts.

(** ** What every call sequence keeps *)
Section any_client.
Implicit Types (st : buffer_assigner_t) (t : list event).

Lemma request_length st s id st' :
  request st s = Ok (id, st') →
  length (data_ st') = length (data_ st)
  ∨ (s ≠ 0 ∧ length (data_ st') = S (length (data_ st))).
Proof.
  intros [[_ Hout]|[[Hs Hout]|(_ & it & k & e & b & _ & _ & Hout)]]%request_cases;
    apply (f_equal snd) in Hout; simpl in Hout; subst st'; simpl.
  - by left.
  - right. split; [done|]. rewrite length_app. simpl. lia.
  - left. by rewrite length_insert.
Qed.

Lemma run_length st t ops t' st' :
  run st t ops = Ok (t', st') →
  (length (data_ st) ≤ length (data_ st')
   ∧ length (data_ st') ≤ length (data_ st) + nonzero_requests ops)%nat.
Proof.
  revert st t. induction ops as [|[s|id] ops IH]; intros st t; simpl.
  - intros [= <- <-]. lia.
  - destruct (request st s) as [[id st1]| |] eqn:Hreq; simpl; [|done..].
    intros Hrun%IH. apply request_length in Hreq.
    case_bool_decide; lia.
  - destruct (release st id) as [st1| |] eqn:Hrel; simpl; [|done..].
    intros Hrun%IH. rewrite (release_data _ _ _ Hrel) in Hrun. done.
Qed.

(** The slot a request returns is large enough for the request. *)
Lemma request_large_enough st s id st' :
  data_ok st → request st s = Ok (id, st') → id ≠ NO_BUFFER →
  ∃ b, data_ st' !! N.to_nat id = Some b ∧ s ≤ max_bytes_ b.
Proof.
  intros Hd Hreq Hne. apply request_cases in Hreq
    as [[_ Hout]|[[_ Hout]|(_ & it & k & e & b & _ & Hb & Hout)]].
  - injection Hout as Hid _. done.
  - unfold alloc in Hout. injection Hout as Hid Hst. subst id st'. simpl.
    rewrite Nat2N.id. eexists. split; [apply list_lookup_middle; done|].
    simpl. lia.
  - unfold reuse in Hout. injection Hout as Hid Hst. subst id st'. simpl.
    rewrite (data_ok_lookup _ _ _ Hd Hb), Nat2N.id.
    eexists. split.
    + apply list_lookup_insert_eq. by eapply lookup_lt_Some.
    + simpl. lia.
Qed.

Lemma request_data_ok st s id st' :
  data_ok st → request st s = Ok (id, st') → data_ok st'.
Proof.
  intros Hd Hreq.
  by apply (run_data_ok st [] [Request s] [EvRequest s id] st' Hd); simpl;
    rewrite Hreq.
Qed.

Lemma run_served st t ops t' st' :
  data_ok st → served st t →
  run st t ops = Ok (t', st') → served st' t'.
Proof.
  revert st t. induction ops as [|[s|id] ops IH]; intros st t Hd Hserved; simpl.
  - by intros [= <- <-].
  - destruct (request st s) as [[id st1]| |] eqn:Hreq; simpl; [|done..].
    apply IH; [by eapply request_data_ok|].
    intros s' id' [[= -> ->]|Hin]%elem_of_cons Hne.
    + by eapply request_large_enough.
    + destruct (Hserved _ _ Hin Hne) as (b & Hb & Hle).
      destruct (request_cell _ _ _ _ _ _ Hreq Hb) as (b' & Hb' & _ & Hsz).
      exists b'. split; [done|lia].
  - destruct (release st id) as [st1| |] eqn:Hrel; simpl; [|done..].
    apply IH.
    + unfold data_ok. by rewrite (release_data _ _ _ Hrel).
    + intros s' id' [[=]|Hin]%elem_of_cons Hne.
      rewrite (release_data _ _ _ Hrel). by apply Hserved.
Qed.

(** A request leaves every slot but the one it returns as it was. *)
Lemma request_frame st s id st' p :
  data_ok st → request st s = Ok (id, st') → N.of_nat p ≠ id →
  data_ st' !! p = data_ st !! p.
Proof.
  intros Hd Hreq Hne. apply request_cases in Hreq
    as [[_ Hout]|[[_ Hout]|(_ & it & k & e & b & _ & Hb & Hout)]].
  - by injection Hout as _ ->.
  - unfold alloc in Hout. injection Hout as Hid Hst. subst id st'. simpl.
    destruct (decide (p < length (data_ st))%nat) as [Hlt|Hge].
    + by rewrite lookup_app_l.
    + rewrite lookup_app_r by lia.
      rewrite (lookup_ge_None_2 (data_ st)) by lia.
      destruct (p - length (data_ st))%nat eqn:Hp; [|done].
      exfalso. apply Hne. f_equal. lia.
  - unfold reuse in Hout. injection Hout as Hid Hst. subst id st'. simpl.
    apply list_lookup_insert_ne. intros ->.
    by rewrite (data_ok_lookup _ _ _ Hd Hb) in Hne.
Qed.

Lemma run_covered st t ops t' st' :
  data_ok st → covered st t →
  run st t ops = Ok (t', st') → covered st' t'.
Proof.
  revert st t. induction ops as [|[s|id] ops IH]; intros st t Hd Hcov; simpl.
  - by intros [= <- <-].
  - destruct (request st s) as [[id st1]| |] eqn:Hreq; simpl; [|done..].
    apply IH; [by eapply request_data_ok|].
    apply request_cases in Hreq
      as [[_ Hout]|[[_ Hout]|(_ & it & k & e & b & Hit & Hb & Hout)]].
    + injection Hout as -> ->. intros p Hp Hns. cbn [live].
      rewrite bool_decide_eq_true_2 by done. by apply Hcov.
    + unfold alloc in Hout. injection Hout as Hid Hst. subst id st1.
      intros p. cbn [live data_ free_]. rewrite length_app. cbn [length].
      intros Hp Hns.
      destruct (decide (p = length (data_ st))) as [->|Hne].
      * left. rewrite bool_decide_eq_false_2 by done. left.
      * destruct (Hcov p ltac:(lia) Hns) as [Hl|Hf]; [left|by right].
        case_bool_decide; [done|by right].
    + unfold reuse in Hout. injection Hout as Hid Hst. subst id st1.
      pose proof (data_ok_lookup _ _ _ Hd Hb) as Hidb.
      intros p. cbn [live data_ free_]. rewrite length_insert. intros Hp Hns.
      destruct (decide (p = e)) as [->|Hne].
      * left. rewrite Hidb. rewrite bool_decide_eq_false_2 by done. left.
      * destruct (Hcov p Hp Hns) as [Hl|Hf].
        { left. case_bool_decide; [done|by right]. }
        right. apply list_elem_of_fmap in Hf as ([k' p'] & -> & Hin).
        apply list_elem_of_lookup_1 in Hin as [j Hj].
        apply list_elem_of_fmap. exists (k', p'). split; [done|].
        unfold multimap.erase.
        assert (j ≠ it) as Hji by (intros ->; simplify_eq/=).
        destruct (decide (j < it)%nat).
        -- apply (list_elem_of_lookup_2 _ j).
           by rewrite list_lookup_delete_lt.
        -- apply (list_elem_of_lookup_2 _ (pred j)).
           rewrite list_lookup_delete_ge by lia.
           by replace (S (pred j)) with j by lia.
  - destruct (release st id) as [st1| |] eqn:Hrel; simpl; [|done..].
    apply IH.
    { unfold data_ok. by rewrite (release_data _ _ _ Hrel). }
    apply release_cases in Hrel as [[-> ->]|(Hne & b & Hb & ->)].
    + intros p Hp Hns. destruct (Hcov p Hp Hns) as [Hl|Hf]; [left|by right].
      cbn [live]. apply list_elem_of_filter. by split.
    + intros p. cbn [live data_ free_]. intros Hp Hns.
      rewrite insert_pointers.
      destruct (decide (N.of_nat p = id)) as [<-|Hpid].
      * right. rewrite Nat2N.id. left.
      * destruct (Hcov p Hp Hns) as [Hl|Hf]; [left|right; by right].
        apply list_elem_of_filter. by split.
Qed.

End any_client.

(** ** The assigner over whole call sequences *)

Lemma covered_new R : covered (new_assigner R) [].
Proof. intros p Hp. simpl in Hp. lia. Qed.

Lemma served_new R : served (new_assigner R) [].
Proof. intros s id Hin. by apply elem_of_nil in Hin. Qed.

(** X1: under a disciplined client the free list stays ordered by size,
    names no slot twice, files every slot under the size recorded for it
    in [data_], and cell [p] of [data_] carries id [p]. *)
Theorem free_list_stays_well_formed R ops t st :
  run (new_assigner R) [] ops = Ok (t, st) → disciplined t →
  StronglySorted N.le (free_ st).*1
  ∧ NoDup (free_ st).*2
  ∧ (∀ k p, (k, p) ∈ free_ st →
       ∃ b, data_ st !! p = Some b ∧ max_bytes_ b = k)
  ∧ (∀ p b, data_ st !! p = Some b → id_ b = N.of_nat p).
Proof.
  intros Hrun Hdisc.
  destruct (run_sound _ _ _ _ _ (held_new R) I Hrun Hdisc) as [(Hwf & _) _].
  pose proof Hwf as (Hd & Hf & Hs & Hn).
  split; [done|]. split; [done|]. split.
  - intros k p [j Hj]%list_elem_of_lookup_1.
    by apply (free_entry_recorded st j).
  - intros p b. by apply data_ok_lookup.
Qed.

Lemma free_list_stays_well_formed_witness :
  StronglySorted N.le (free_ small_state).*1
  ∧ NoDup (free_ small_state).*2
  ∧ (∀ k p, (k, p) ∈ free_ small_state →
       ∃ b, data_ small_state !! p = Some b ∧ max_bytes_ b = k)
  ∧ (∀ p b, data_ small_state !! p = Some b → id_ b = N.of_nat p).
Proof.
  apply (free_list_stays_well_formed 16 [Request 100; Release 0]
           [EvRelease 0; EvRequest 100 0]).
  - vm_compute. reflexivity.
  - simpl. split; [|exact I]. right. vm_compute. left.
Defined.

(** X2: under a disciplined client, and while no slot id reaches the
    sentinel, every slot is either held by the client or on the free list,
    never both and never neither; so held and free slots add up to the
    slots created. *)
Theorem every_slot_is_held_or_free R ops t st :
  run (new_assigner R) [] ops = Ok (t, st) → disciplined t →
  N.of_nat (length (data_ st)) ≤ NO_BUFFER →
  (∀ p, (p < length (data_ st))%nat →
     (N.of_nat p ∈ live t ∧ p ∉ (free_ st).*2)
     ∨ ((N.of_nat p ∉ live t) ∧ p ∈ (free_ st).*2))
  ∧ (length (live t) + length (free_ st) = length (data_ st))%nat.
Proof.
  intros Hrun Hdisc Hbound.
  destruct (run_sound _ _ _ _ _ (held_new R) I Hrun Hdisc)
    as [(Hwf & Hnd & Hoff & _ & Hret) _].
  pose proof Hwf as (_ & _ & _ & Hnf).
  pose proof (run_covered _ _ _ _ _ (data_ok_new R) (covered_new R) Hrun) as Hcov.
  assert (∀ p, (p < length (data_ st))%nat →
     (N.of_nat p ∈ live t ∧ p ∉ (free_ st).*2)
     ∨ ((N.of_nat p ∉ live t) ∧ p ∈ (free_ st).*2)) as Hpart.
  { intros p Hp. destruct (decide (N.of_nat p ∈ live t)) as [Hl|Hl].
    - left. split; [done|]. apply Hoff in Hl. by rewrite Nat2N.id in Hl.
    - right. split; [done|]. destruct (Hcov p Hp ltac:(lia)); done. }
  split; [done|].
  assert ((N.to_nat <$> live t) ++ (free_ st).*2 ≡ₚ seq 0 (length (data_ st)))
    as Hperm.
  { apply NoDup_Permutation.
    - apply NoDup_app. split; [|split; [|done]].
      + apply NoDup_fmap_2_strong; [|done]. intros x y _ _ Hxy. lia.
      + intros x (id & -> & Hid)%list_elem_of_fmap. by apply Hoff.
    - apply NoDup_seq.
    - intros x. rewrite elem_of_app, elem_of_seq. split.
      + intros [(id & -> & Hid)%list_elem_of_fmap|Hf].
        * apply live_returned, Hret in Hid. lia.
        * pose proof (free_pointer_valid st x Hwf Hf). lia.
      + intros [_ Hx]. simpl in Hx.
        destruct (Hpart x Hx) as [[Hl _]|[_ Hf]]; [left|by right].
        apply list_elem_of_fmap. exists (N.of_nat x).
        split; [by rewrite Nat2N.id|done]. }
  apply Permutation_length in Hperm.
  rewrite length_app, !length_fmap, length_seq in Hperm. done.
Qed.

Lemma every_slot_is_held_or_free_witness :
  (∀ p, (p < length (data_ small_state))%nat →
     (N.of_nat p ∈ live [EvRelease 0; EvRequest 100 0]
      ∧ p ∉ (free_ small_state).*2)
     ∨ ((N.of_nat p ∉ live [EvRelease 0; EvRequest 100 0])
        ∧ p ∈ (free_ small_state).*2))
  ∧ (length (live [EvRelease 0; EvRequest 100 0]) + length (free_ small_state)
     = length (data_ small_state))%nat.
Proof.
  apply (every_slot_is_held_or_free 16 [Request 100; Release 0]).
  - vm_compute. reflexivity.
  - simpl. split; [|exact I]. right. vm_compute. left.
  - vm_compute. discriminate.
Defined.

(** X3: after any call sequence, every slot id a request has returned is
    still valid -- [query_size] and [release] accept it -- and its recorded
    size is at least the size of every request it has served. *)
Theorem served_requests_fit R ops t st s id :
  run (new_assigner R) [] ops = Ok (t, st) →
  EvRequest s id ∈ t → id ≠ NO_BUFFER →
  ∃ v st', query_size st id = Ok v ∧ s ≤ v ∧ release st id = Ok st'.
Proof.
  intros Hrun Hin Hne.
  destruct (run_served _ _ _ _ _ (data_ok_new R) (served_new R) Hrun
              s id Hin Hne) as (b & Hb & Hle).
  exists (max_bytes_ b). eexists.
  split; [by apply query_size_slot|]. split; [done|]. by apply release_slot.
Qed.

Lemma served_requests_fit_witness :
  ∃ v st',
    query_size {| match_range_ := 16; free_ := [];
                  data_ := [mk_buffer_info 0 100] |} 0 = Ok v
    ∧ 90 ≤ v
    ∧ release {| match_range_ := 16; free_ := [];
                 data_ := [mk_buffer_info 0 100] |} 0 = Ok st'.
Proof.
  apply (served_requests_fit 16 [Request 100; Release 0; Request 90]
           [EvRequest 90 0; EvRelease 0; EvRequest 100 0]).
  - vm_compute. reflexivity.
  - left.
  - discriminate.
Defined.

(** X4: a request changes no slot other than the one it returns and adds
    nothing to the free list; a release changes no slot at all. *)
Theorem calls_touch_one_slot R ops t st :
  run (new_assigner R) [] ops = Ok (t, st) →
  (∀ s id st', request st s = Ok (id, st') →
     (∀ p, N.of_nat p ≠ id → data_ st' !! p = data_ st !! p)
     ∧ free_ st' `sublist_of` free_ st
     ∧ match_range_ st' = match_range_ st)
  ∧ (∀ id st', release st id = Ok st' →
       data_ st' = data_ st ∧ match_range_ st' = match_range_ st).
Proof.
  intros Hrun.
  pose proof (run_data_ok _ _ _ _ _ (data_ok_new R) Hrun) as Hd.
  split.
  - intros s id st' Hreq. split; [intros p; by apply (request_frame st s)|].
    apply request_cases in Hreq
      as [[_ Hout]|[[_ Hout]|(_ & it & k & e & b & _ & _ & Hout)]];
      apply (f_equal snd) in Hout; simpl in Hout; subst st'; simpl.
    + done.
    + done.
    + split; [apply sublist_delete|done].
  - intros id st' Hrel. split; [by eapply release_data|].
    by apply release_cases in Hrel as [[_ ->]|(_ & b & _ & ->)].
Qed.

Lemma calls_touch_one_slot_witness :
  (∀ s id st', request small_state s = Ok (id, st') →
     (∀ p, N.of_nat p ≠ id → data_ st' !! p = data_ small_state !! p)
     ∧ free_ st' `sublist_of` free_ small_state
     ∧ match_range_ st' = match_range_ small_state)
  ∧ (∀ id st', release small_state id = Ok st' →
       data_ st' = data_ small_state
       ∧ match_range_ st' = match_range_ small_state).
Proof.
  apply (calls_touch_one_slot 16 [Request 100; Release 0]
           [EvRelease 0; EvRequest 100 0]).
  vm_compute. reflexivity.
Defined.

(** X5: the assigner never creates more slots than there were requests
    for a non-empty buffer, whatever the match range and whatever the
    client releases. *)
Theorem slots_bounded_by_requests R ops t st :
  run (new_assigner R) [] ops = Ok (t, st) →
  (length (data_ st) ≤ nonzero_requests ops)%nat.
Proof. intros Hrun%run_length. simpl in Hrun. lia. Qed.

Lemma slots_bounded_by_requests_witness :
  (length (data_ small_state) ≤ nonzero_requests [Request 100; Release 0])%nat.
Proof.
  apply (slots_bounded_by_requests 16 [Request 100; Release 0]
           [EvRelease 0; EvRequest 100 0]).
  vm_compute. reflexivity.
Defined.

Lemma run_without_reuse st t ops t' st' :
  match_range_ st = 0 → run st t ops = Ok (t', st') →
  length (data_ st') = (length (data_ st) + nonzero_requests ops)%nat.
Proof.
  revert st t. induction ops as [|[s|id] ops IH]; intros st t HR; simpl.
  - intros [= <- <-]. lia.
  - unfold request. rewrite HR. simpl.
    destruct (N.eqb_spec s 0) as [->|Hs]; simpl.
    + by apply IH.
    + rewrite bool_decide_eq_false_2 by done.
      intros Hrun%IH; [|done]. simpl in Hrun. rewrite length_app in Hrun.
      simpl in Hrun. lia.
  - destruct (release st id) as [st1| |] eqn:Hrel; simpl; [|done..].
    intros Hrun%IH.
    + by rewrite (release_data _ _ _ Hrel) in Hrun.
    + by apply release_cases in Hrel as [[_ ->]|(_ & b & _ & ->)].
Qed.

(** X6: with match range 0 nothing is ever reused: the number of slots
    equals the number of requests for a non-empty buffer, however many
    slots have been released in between. *)
Theorem match_range_0_never_reuses ops t st :
  run (new_assigner 0) [] ops = Ok (t, st) →
  length (data_ st) = nonzero_requests ops.
Proof. intros Hrun%run_without_reuse; done. Qed.

Lemma match_range_0_never_reuses_witness :
  length [mk_buffer_info 0 100; mk_buffer_info 1 100]
  = nonzero_requests [Request 100; Release 0; Request 100].
Proof.
  apply (match_range_0_never_reuses [Request 100; Release 0; Request 100]
           [EvRequest 100 1; EvRelease 0; EvRequest 100 0]
           {| match_range_ := 0; free_ := [(100, 0%nat)];
              data_ := [mk_buffer_info 0 100; mk_buffer_info 1 100] |}).
  vm_compute. reflexivity.
Defined.

(** X7: while fewer than [2^64 - 1] slots exist, [request] returns the
    sentinel exactly for size 0, so the sentinel never stands for a
    slot. *)
Theorem sentinel_only_for_size_0 R ops t st s id st' :
  run (new_assigner R) [] ops = Ok (t, st) →
  N.of_nat (length (data_ st)) < NO_BUFFER →
  request st s = Ok (id, st') →
  id = NO_BUFFER ↔ s = 0.
Proof.
  intros Hrun Hbound Hreq.
  pose proof (run_data_ok _ _ _ _ _ (data_ok_new R) Hrun) as Hd.
  apply request_cases in Hreq
    as [[Hs Hout]|[[Hs Hout]|(Hs & it & k & e & b & _ & Hb & Hout)]].
  - by injection Hout as -> _.
  - unfold alloc in Hout. injection Hout as Hid _. split; [lia|done].
  - unfold reuse in Hout. injection Hout as Hid _.
    rewrite (data_ok_lookup _ _ _ Hd Hb) in Hid.
    apply lookup_lt_Some in Hb. split; [lia|done].
Qed.

Lemma sentinel_only_for_size_0_witness : 0 = NO_BUFFER ↔ 90 = 0.
Proof.
  apply (sentinel_only_for_size_0 16 [Request 100; Release 0]
           [EvRelease 0; EvRequest 100 0] small_state 90 0
           {| match_range_ := 16; free_ := [];
              data_ := [mk_buffer_info 0 100] |}).
  - vm_compute. reflexivity.
  - vm_compute. reflexivity.
  - vm_compute. reflexivity.
Defined.

(** ** Releasing and asking again *)

(** What a disciplined client knows of a slot it holds. *)
Lemma held_slot_facts R ops t st id m :
  run (new_assigner R) [] ops = Ok (t, st) → disciplined t →
  id ∈ live t → query_size st id = Ok m →
  wf st ∧ match_range_ st = R ∧ id ≠ NO_BUFFER
  ∧ (N.to_nat id ∉ multimap.pointers (free_ st))
  ∧ (∃ b, data_ st !! N.to_nat id = Some b ∧ max_bytes_ b = m
          ∧ id_ b = id).
Proof.
  intros Hrun Hdisc Hlive Hq.
  destruct (run_sound _ _ _ _ _ (held_new R) I Hrun Hdisc)
    as [(Hwf & _ & Hoff & _) _].
  pose proof (run_match_range _ _ _ _ _ Hrun) as HR.
  assert (id ≠ NO_BUFFER) as Hne.
  { intros ->. by apply (live_not_sentinel t). }
  apply query_size_cases in Hq as [[? _]|(_ & b & Hb & ->)]; [done|].
  split; [done|]. split; [done|]. split; [done|]. split; [by apply Hoff|].
  exists b. split; [done|]. split; [done|].
  destruct Hwf as (Hd & _). rewrite (data_ok_lookup _ _ _ Hd Hb). lia.
Qed.

Lemma request_scan_above st s it e b :
  wf st → s ≠ 0 → match_range_ st ≠ 0 →
  s * match_range_ st < SIZE_MODULUS →
  multimap.lower_bound s (free_ st) = it →
  free_ st !! it = Some (max_bytes_ b, e) → data_ st !! e = Some b →
  max_bytes_ b ≤ s * match_range_ st →
  request st s = Ok (reuse st it e b s).
Proof.
  intros (_ & _ & Hsorted & _) Hs HR Hfit Hmid Hit Hb Hle. unfold request.
  rewrite (proj2 (N.eqb_neq _ _) Hs), (proj2 (N.eqb_neq _ _) HR). simpl.
  unfold size_wrap. rewrite N.mod_small by done. rewrite Hmid.
  pose proof (upper_bound_spec (s * match_range_ st) _ _ _ Hsorted Hit) as Hub.
  simpl in Hub. rewrite bool_decide_eq_true_2 by lia.
  by apply take_free_reuse.
Qed.

(** X8: a disciplined client that releases a held slot and at once asks
    for its recorded size gets the same slot back and the assigner is
    exactly as before, provided no free slot has that very size and the
    product with the match range fits [size_t]. *)
Theorem release_then_request_restores R ops t st id m :
  run (new_assigner R) [] ops = Ok (t, st) → disciplined t →
  id ∈ live t → query_size st id = Ok m →
  0 < m → R ≠ 0 → m * R < SIZE_MODULUS →
  (∀ e, e ∈ free_ st → e.1 ≠ m) →
  ∃ st1, release st id = Ok st1 ∧ request st1 m = Ok (id, st).
Proof.
  intros Hrun Hdisc Hlive Hq Hm HR Hfit Hnone.
  destruct (held_slot_facts _ _ _ _ _ _ Hrun Hdisc Hlive Hq)
    as (Hwf & HRst & Hne & Hnotin & b & Hb & Hmb & Hidb).
  eexists. split; [by apply release_slot|].
  assert (wf {| match_range_ := match_range_ st;
                free_ := multimap.insert (max_bytes_ b) (N.to_nat id) (free_ st);
                data_ := data_ st |}) as Hwf1.
  { apply (wf_release st id); [done|done|by apply release_slot]. }
  rewrite Hmb in *.
  rewrite (request_scan_above _ m (multimap.upper_bound m (free_ st))
             (N.to_nat id) b); simpl; try done; try lia.
  - unfold reuse. simpl. rewrite erase_insert_upper_bound, Hidb.
    rewrite Hmb, N.max_id. rewrite list_insert_id; [by destruct st|].
    rewrite Hb. f_equal. destruct b. simpl in *. by subst.
  - rewrite lower_bound_insert. by apply lower_eq_upper_bound.
  - rewrite Hmb. apply insert_lookup_upper_bound.
  - rewrite Hmb, HRst. nia.
Qed.

Lemma release_then_request_restores_witness :
  ∃ st1,
    release {| match_range_ := 16; free_ := [];
               data_ := [mk_buffer_info 0 100] |} 0 = Ok st1
    ∧ request st1 100
      = Ok (0, {| match_range_ := 16; free_ := [];
                  data_ := [mk_buffer_info 0 100] |}).
Proof.
  apply (release_then_request_restores 16 [Request 100]
           [EvRequest 100 0] _ 0 100).
  - vm_compute. reflexivity.
  - exact I.
  - left.
  - vm_compute. reflexivity.
  - reflexivity.
  - discriminate.
  - reflexivity.
  - intros e He. by apply elem_of_nil in He.
Defined.

(** X10: [clear] forgets every slot: afterwards [release] and
    [query_size] stop on the assertion for every id but the sentinel, and
    the next request for a non-empty buffer creates slot 0 again; the
    match range is kept. *)
Theorem clear_forgets_every_slot st id s :
  id ≠ NO_BUFFER → s ≠ 0 →
  release (clear st) id = AssertFail "invalid buffer id"
  ∧ query_size (clear st) id = AssertFail "invalid buffer id"
  ∧ request (clear st) s
    = Ok (0, {| match_range_ := match_range_ st; free_ := [];
                data_ := [mk_buffer_info 0 s] |})
  ∧ clear st = new_assigner (match_range_ st).
Proof.
  intros Hne Hs.
  assert (valid_id (clear st) id = false) as Hinvalid.
  { unfold valid_id, clear. cbn [data_ length].
    rewrite (proj2 (N.ltb_ge id (N.of_nat 0))) by lia.
    by rewrite (proj2 (N.eqb_neq _ _) Hne). }
  split; [unfold release; by rewrite Hinvalid|].
  split; [unfold query_size; by rewrite Hinvalid|].
  split; [|done].
  unfold request. rewrite (proj2 (N.eqb_neq _ _) Hs).
  unfold clear. cbn [match_range_ free_ multimap.lower_bound multimap.upper_bound].
  by destruct (match_range_ st =? 0).
Qed.

Lemma clear_forgets_every_slot_witness :
  release (clear small_state) 0 = AssertFail "invalid buffer id"
  ∧ query_size (clear small_state) 0 = AssertFail "invalid buffer id"
  ∧ request (clear small_state) 7
    = Ok (0, {| match_range_ := match_range_ small_state; free_ := [];
                data_ := [mk_buffer_info 0 7] |})
  ∧ clear small_state = new_assigner (match_range_ small_state).
Proof.
  apply (clear_forgets_every_slot small_state 0 7); discriminate.
Defined.

(** ** The execution-argument set *)
Section execution_args_facts.
Context {memory exec_args : Type}.
Implicit Types (s : execution_args_set_t memory exec_args)
  (c : adder memory exec_args) (cs : list (adder memory exec_args)).

Lemma add_value_mem_map_lookup s key v key' :
  value_mem_map_ (add_value_mem_map s (key, v)) !! key'
  = if decide (key' = key)
    then Some (default v (value_mem_map_ s !! key))
    else value_mem_map_ s !! key'.
Proof.
  unfold add_value_mem_map. simpl.
  destruct (value_mem_map_ s !! key) as [v0|] eqn:Hk; simpl;
    case_decide; subst; by rewrite ?lookup_insert_eq, ?lookup_insert_ne.
Qed.

Lemma call_adders_cons s c cs :
  call_adders s (c :: cs) = call_adders (call_adder s c) cs.
Proof. done. Qed.

Lemma call_adders_lists s cs :
  get_exec_args (call_adders s cs)
  = get_exec_args s
    ++ omap (λ c, match c with AddExecArgs a => Some a | _ => None end) cs
  ∧ get_mems_use_external_inputs (call_adders s cs)
    = get_mems_use_external_inputs s
      ++ omap (λ c, match c with
                    | AddMemUseExternalInputs m => Some m | _ => None end) cs
  ∧ get_mems_use_external_outputs (call_adders s cs)
    = get_mems_use_external_outputs s
      ++ omap (λ c, match c with
                    | AddMemUseExternalOutputs m => Some m | _ => None end) cs
  ∧ get_mems_use_internal_temporary (call_adders s cs)
    = get_mems_use_internal_temporary s
      ++ omap (λ c, match c with
                    | AddMemUseInternalTemporary m => Some m | _ => None end) cs
  ∧ get_mems_use_internal_persistent (call_adders s cs)
    = get_mems_use_internal_persistent s
      ++ omap (λ c, match c with
                    | AddMemUseInternalPersistent m => Some m | _ => None end) cs.
Proof.
  revert s. induction cs as [|c cs IH]; intros s.
  { simpl. by rewrite !app_nil_r. }
  rewrite call_adders_cons.
  destruct (IH (call_adder s c)) as (H1 & H2 & H3 & H4 & H5).
  rewrite H1, H2, H3, H4, H5.
  destruct c; simpl; unfold get_exec_args, get_mems_use_external_inputs,
    get_mems_use_external_outputs, get_mems_use_internal_temporary,
    get_mems_use_internal_persistent; simpl;
    rewrite <- ?app_assoc; done.
Qed.

Lemma call_adders_value_map s cs :
  get_value_mem_map (call_adders s cs)
  = get_value_mem_map s
    ∪ list_to_map
        (omap (λ c, match c with AddValueMemMap m => Some m | _ => None end) cs).
Proof.
  unfold get_value_mem_map. revert s.
  induction cs as [|c cs IH]; intros s.
  { simpl. by rewrite (right_id_L ∅ (∪)). }
  rewrite call_adders_cons, IH.
  destruct c as [a|[key v]|m|m|m|m]; simpl; try done.
  destruct (value_mem_map_ s !! key) as [v0|] eqn:Hk.
  - apply map_eq. intros i. rewrite !lookup_union.
    destruct (decide (i = key)) as [->|Hi].
    + rewrite Hk, lookup_insert_eq. simpl.
      by destruct (list_to_map _ !! key).
    + by rewrite lookup_insert_ne.
  - rewrite <- insert_union_l. by rewrite insert_union_r.
Qed.

End execution_args_facts.

(** X11: in the value-to-memory map the first binding of a value wins:
    [add_value_mem_map] on a value that is already bound changes nothing,
    on a new value it binds it, and other values are not affected;
    [find_value_mem_map] on a value that is not bound answers [false] and
    leaves its out-parameter alone. *)
Theorem first_value_binding_wins {memory exec_args : Type}
  (s : execution_args_set_t memory exec_args) key v mem :
  ((find_value_mem_map s key mem).1 = false →
     find_value_mem_map s key mem = (false, mem)
     ∧ find_value_mem_map (add_value_mem_map s (key, v)) key mem = (true, v))
  ∧ ((find_value_mem_map s key mem).1 = true →
     find_value_mem_map (add_value_mem_map s (key, v)) key mem
     = find_value_mem_map s key mem)
  ∧ (∀ key', key' ≠ key →
     find_value_mem_map (add_value_mem_map s (key, v)) key' mem
     = find_value_mem_map s key' mem)
  ∧ find_value_mem_map (@new_execution_args_set memory exec_args) key mem
    = (false, mem).
Proof.
  unfold find_value_mem_map.
  split; [|split; [|split]].
  - rewrite add_value_mem_map_lookup. case_decide; [|done].
    destruct (value_mem_map_ s !! key); simpl; [done|]. by intros _.
  - rewrite add_value_mem_map_lookup. case_decide; [|done].
    destruct (value_mem_map_ s !! key); simpl; done.
  - intros key' Hne. rewrite add_value_mem_map_lookup. by case_decide.
  - done.
Qed.

Lemma first_value_binding_wins_witness :
  find_value_mem_map
    (add_value_mem_map
       (add_value_mem_map (@new_execution_args_set N unit) (5, 40)) (5, 41))
    5 0
  = find_value_mem_map
      (add_value_mem_map (@new_execution_args_set N unit) (5, 40)) 5 0.
Proof.
  apply (proj1 (proj2 (first_value_binding_wins
           (add_value_mem_map (@new_execution_args_set N unit) (5, 40))
           5 41 0))).
  vm_compute. reflexivity.
Defined.

(** X12: a set filled by any sequence of adder calls returns, from each
    getter, exactly the arguments of the matching adder in call order, and
    its value-to-memory map holds for every value the first memory bound
    to it. *)
Theorem adders_fill_in_call_order {memory exec_args : Type}
  (cs : list (adder memory exec_args)) :
  get_exec_args (call_adders new_execution_args_set cs)
  = omap (λ c, match c with AddExecArgs a => Some a | _ => None end) cs
  ∧ get_mems_use_external_inputs (call_adders new_execution_args_set cs)
    = omap (λ c, match c with
                 | AddMemUseExternalInputs m => Some m | _ => None end) cs
  ∧ get_mems_use_external_outputs (call_adders new_execution_args_set cs)
    = omap (λ c, match c with
                 | AddMemUseExternalOutputs m => Some m | _ => None end) cs
  ∧ get_mems_use_internal_temporary (call_adders new_execution_args_set cs)
    = omap (λ c, match c with
                 | AddMemUseInternalTemporary m => Some m | _ => None end) cs
  ∧ get_mems_use_internal_persistent (call_adders new_execution_args_set cs)
    = omap (λ c, match c with
                 | AddMemUseInternalPersistent m => Some m | _ => None end) cs
  ∧ get_value_mem_map (call_adders new_execution_args_set cs)
    = list_to_map
        (omap (λ c, match c with AddValueMemMap m => Some m | _ => None end) cs).
Proof.
  destruct (call_adders_lists new_execution_args_set cs)
    as (H1 & H2 & H3 & H4 & H5).
  rewrite H1, H2, H3, H4, H5, call_adders_value_map.
  unfold get_value_mem_map. simpl. by rewrite (left_id_L ∅ (∪)).
Qed.

(** X13: [memory_planner_t::clear] forgets every assignment, so that
    [get_memory_info] answers the empty text for every value afterwards,
    and empties both assigners while keeping their match range; the
    reference-count table and the sharing flag are as before. *)
Theorem planner_clear_forgets_assignments mp val :
  get_memory_info (memory_planner_t_clear mp) val
  = ("", memory_planner_t_clear mp)
  ∧ temporary_buffer_assigner_ (memory_planner_t_clear mp)
    = new_assigner (match_range_ (temporary_buffer_assigner_ mp))
  ∧ persistent_buffer_assigner_ (memory_planner_t_clear mp)
    = new_assigner (match_range_ (persistent_buffer_assigner_ mp))
  ∧ temporary_buffer_ref_count_ (memory_planner_t_clear mp)
    = temporary_buffer_ref_count_ mp
  ∧ enable_memory_sharing_ (memory_planner_t_clear mp)
    = enable_memory_sharing_ mp.
Proof.
  split; [|done]. unfold get_memory_info. simpl. by rewrite lookup_empty.
Qed.

(** ** The planned footprint *)
Section footprint.
Implicit Types (st : buffer_assigner_t) (l : list buffer_info_t).

Lemma foldr_bytes_app l1 l2 :
  foldr (λ b acc, max_bytes_ b + acc) 0 (l1 ++ l2)
  = foldr (λ b acc, max_bytes_ b + acc) 0 l1
    + foldr (λ b acc, max_bytes_ b + acc) 0 l2.
Proof. induction l1 as [|b l1 IH]; simpl; [done|]. rewrite IH. lia. Qed.

Lemma foldr_bytes_insert l e b x :
  l !! e = Some b →
  foldr (λ b acc, max_bytes_ b + acc) 0 (<[e := x]> l) + max_bytes_ b
  = foldr (λ b acc, max_bytes_ b + acc) 0 l + max_bytes_ x.
Proof.
  revert e. induction l as [|b0 l IH]; intros [|e] Hb; simplify_eq/=; [lia|].
  specialize (IH _ Hb). lia.
Qed.

Lemma request_total_bytes st s id st' :
  request st s = Ok (id, st') →
  total_bytes st ≤ total_bytes st' ∧ total_bytes st' ≤ total_bytes st + s.
Proof.
  unfold total_bytes.
  intros [[_ Hout]|[[_ Hout]|(_ & it & k & e & b & _ & Hb & Hout)]]%request_cases;
    apply (f_equal snd) in Hout; simpl in Hout; subst st'; simpl.
  - lia.
  - rewrite foldr_bytes_app. simpl. lia.
  - pose proof (foldr_bytes_insert _ _ _
                  (mk_buffer_info (id_ b) (N.max s (max_bytes_ b))) Hb) as Hsum.
    simpl in Hsum. lia.
Qed.

Lemma run_total_bytes st t ops t' st' :
  run st t ops = Ok (t', st') →
  total_bytes st ≤ total_bytes st'
  ∧ total_bytes st' ≤ total_bytes st + requested_bytes ops.
Proof.
  revert st t. induction ops as [|[s|id] ops IH]; intros st t; simpl.
  - intros [= <- <-]. lia.
  - destruct (request st s) as [[id st1]| |] eqn:Hreq; simpl; [|done..].
    intros Hrun%IH. apply request_total_bytes in Hreq. lia.
  - destruct (release st id) as [st1| |] eqn:Hrel; simpl; [|done..].
    intros Hrun%IH. unfold total_bytes in *.
    by rewrite (release_data _ _ _ Hrel) in Hrun.
Qed.

End footprint.

(** X14: the bytes all slots stand for together never decrease, a request
    of [s] bytes raises them by at most [s], and after any call sequence
    they are at most the sum of all requested sizes. *)
Theorem footprint_bounded_by_requests R ops t st :
  run (new_assigner R) [] ops = Ok (t, st) →
  total_bytes st ≤ requested_bytes ops
  ∧ (∀ s id st', request st s = Ok (id, st') →
       total_bytes st ≤ total_bytes st'
       ∧ total_bytes st' ≤ total_bytes st + s)
  ∧ (∀ id st', release st id = Ok st' → total_bytes st' = total_bytes st).
Proof.
  intros Hrun. split; [|split].
  - apply run_total_bytes in Hrun.
    change (total_bytes (new_assigner R)) with 0 in Hrun. lia.
  - intros s id st'. apply request_total_bytes.
  - intros id st' Hrel. unfold total_bytes.
    by rewrite (release_data _ _ _ Hrel).
Qed.

Lemma footprint_bounded_by_requests_witness :
  total_bytes {| match_range_ := 16; free_ := [];
                 data_ := [mk_buffer_info 0 100] |}
  ≤ requested_bytes [Request 100; Release 0; Request 90].
Proof.
  apply (footprint_bounded_by_requests 16 [Request 100; Release 0; Request 90]
           [EvRequest 90 0; EvRelease 0; EvRequest 100 0]).
  vm_compute. reflexivity.
Defined.

(** ** The scan below the requested size *)
Section scan_below.
Import multimap.
Implicit Types (m : multimap.t) (k : N) (e : N * nat).

Lemma insert_lookup_after k p m j :
  (upper_bound k m < j)%nat → insert k p m !! j = m !! pred j.
Proof.
  revert j. induction m as [|e m IH]; simpl; intros j Hj.
  { destruct j as [|[|j]]; [lia|done..]. }
  destruct (N.ltb_spec k e.1).
  - destruct j as [|j]; [lia|done].
  - destruct j as [|[|j]]; [lia|lia|]. simpl. rewrite IH by lia. done.
Qed.

Lemma upper_bound_insert_length k p m :
  length (insert k p m) = S (length m).
Proof. by rewrite insert_perm. Qed.

Lemma lower_bound_unique k m n :
  sorted m → (n ≤ length m)%nat →
  (∀ j e, m !! j = Some e → (j < n)%nat ↔ e.1 < k) →
  lower_bound k m = n.
Proof.
  intros Hs Hn Hchar. pose proof (lower_bound_length k m) as Hl.
  destruct (Nat.lt_trichotomy (lower_bound k m) n) as [Hlt|[Heq|Hgt]]; [|done|].
  - destruct (lookup_lt_is_Some_2 m (lower_bound k m)) as [e He]; [lia|].
    pose proof (Hchar _ _ He). pose proof (lower_bound_spec k m _ _ Hs He). lia.
  - destruct (lookup_lt_is_Some_2 m n) as [e He]; [lia|].
    pose proof (Hchar _ _ He). pose proof (lower_bound_spec k m _ _ Hs He). lia.
Qed.

Lemma upper_bound_unique k m n :
  sorted m → (n ≤ length m)%nat →
  (∀ j e, m !! j = Some e → (j < n)%nat ↔ e.1 ≤ k) →
  upper_bound k m = n.
Proof.
  intros Hs Hn Hchar. pose proof (upper_bound_length k m) as Hl.
  destruct (Nat.lt_trichotomy (upper_bound k m) n) as [Hlt|[Heq|Hgt]]; [|done|].
  - destruct (lookup_lt_is_Some_2 m (upper_bound k m)) as [e He]; [lia|].
    pose proof (Hchar _ _ He). pose proof (upper_bound_spec k m _ _ Hs He). lia.
  - destruct (lookup_lt_is_Some_2 m n) as [e He]; [lia|].
    pose proof (Hchar _ _ He). pose proof (upper_bound_spec k m _ _ Hs He). lia.
Qed.

Lemma request_scan_below st s it (p : nat) b :
  wf st → s ≠ 0 → match_range_ st ≠ 0 →
  s * match_range_ st < SIZE_MODULUS →
  lower_bound s (free_ st) = S it →
  upper_bound (s * match_range_ st) (free_ st) = S it →
  lower_bound (s / match_range_ st) (free_ st) ≠ S it →
  free_ st !! it = Some (max_bytes_ b, p) → data_ st !! p = Some b →
  request st s = Ok (reuse st it p b s).
Proof.
  intros _ Hs HR Hfit Hmid Hend Hbegin Hit Hb. unfold request.
  rewrite (proj2 (N.eqb_neq _ _) Hs), (proj2 (N.eqb_neq _ _) HR). simpl.
  unfold size_wrap. rewrite N.mod_small by done. rewrite Hmid, Hend.
  rewrite bool_decide_eq_false_2 by (intros Hne; by apply Hne).
  rewrite bool_decide_eq_true_2 by done.
  by apply take_free_reuse.
Qed.

End scan_below.

(** X15: among smaller slots the one released last is taken first: when
    a disciplined client releases a held slot of size [m] and asks for
    [s > m] with [s / R <= m], and every other free slot is at most [m] or
    beyond [s * R], it gets that very slot back, now recorded with size
    [s], and the free list is as it was before the release. *)
Theorem smaller_slot_last_released_first R ops t st id m s :
  run (new_assigner R) [] ops = Ok (t, st) → disciplined t →
  id ∈ live t → query_size st id = Ok m →
  m < s → s / R ≤ m → R ≠ 0 → s * R < SIZE_MODULUS →
  (∀ e, e ∈ free_ st → e.1 ≤ m ∨ s * R < e.1) →
  ∃ st1 st2,
    release st id = Ok st1 ∧ request st1 s = Ok (id, st2)
    ∧ query_size st2 id = Ok s ∧ free_ st2 = free_ st.
Proof.
  intros Hrun Hdisc Hlive Hq Hms Hlow HR Hfit Hfree.
  destruct (held_slot_facts _ _ _ _ _ _ Hrun Hdisc Hlive Hq)
    as (Hwf & HRst & Hne & Hnotin & b & Hb & Hmb & Hidb).
  pose proof Hwf as (_ & _ & Hsorted & _).
  set (st1 := {| match_range_ := match_range_ st;
                 free_ := multimap.insert (max_bytes_ b) (N.to_nat id) (free_ st);
                 data_ := data_ st |}).
  assert (release st id = Ok st1) as Hrel by (by apply release_slot).
  assert (wf st1) as Hwf1 by (by apply (wf_release st id)).
  pose proof Hwf1 as (_ & _ & Hsorted1 & _).
  set (i := multimap.upper_bound m (free_ st)).
  assert (s ≤ s * R) as Hhigh by nia.
  assert (∀ j e, free_ st1 !! j = Some e →
            ((j ≤ i)%nat ∧ e.1 ≤ m) ∨ ((i < j)%nat ∧ s * R < e.1)) as Hshape.
  { intros j e. unfold st1. cbn [free_]. rewrite Hmb. intros Hj.
    destruct (Nat.lt_trichotomy j i) as [Hlt|[->|Hgt]].
    - left. split; [lia|]. rewrite insert_lookup_before in Hj by done.
      by apply (upper_bound_spec m (free_ st) j e Hsorted Hj).
    - left. split; [lia|]. unfold i in Hj.
      rewrite insert_lookup_upper_bound in Hj. by simplify_eq/=.
    - right. split; [lia|]. rewrite insert_lookup_after in Hj by done.
      pose proof (upper_bound_spec m (free_ st) _ e Hsorted Hj) as Hub.
      destruct (Hfree e (list_elem_of_lookup_2 _ _ _ Hj)); [|done].
      unfold i in Hgt. lia. }
  assert (i < length (free_ st1))%nat as Hi.
  { unfold st1. cbn [free_]. rewrite upper_bound_insert_length.
    pose proof (upper_bound_length m (free_ st)). unfold i. lia. }
  assert (free_ st1 !! i = Some (max_bytes_ b, N.to_nat id)) as Hit.
  { unfold st1, i. cbn [free_]. rewrite Hmb. apply insert_lookup_upper_bound. }
  exists st1. eexists. split; [done|].
  assert (request st1 s = Ok (reuse st1 i (N.to_nat id) b s)) as Hreq.
  { apply request_scan_below; try done; cbn [match_range_ st1]; rewrite ?HRst.
    - lia.
    - done.
    - done.
    - apply lower_bound_unique; [done|lia|].
      intros j e He. destruct (Hshape j e He); lia.
    - apply upper_bound_unique; [done|lia|].
      intros j e He. destruct (Hshape j e He); lia.
    - pose proof (lower_bound_spec (s / R) _ _ _ Hsorted1 Hit) as Hlb.
      cbn [fst] in Hlb. lia. }
  rewrite Hreq. unfold reuse. rewrite Hidb. split; [done|].
  cbn [free_ data_ st1]. replace (N.max s (max_bytes_ b)) with s by lia.
  split.
  - apply (query_size_slot _ id (mk_buffer_info id s)); [done|]. cbn [data_].
    apply list_lookup_insert_eq. by eapply lookup_lt_Some.
  - unfold i. rewrite Hmb. apply erase_insert_upper_bound.
Qed.

Lemma smaller_slot_last_released_first_witness :
  ∃ st1 st2,
    release {| match_range_ := 16; free_ := [(100, 0%nat)];
               data_ := [mk_buffer_info 0 100; mk_buffer_info 1 100] |} 1
      = Ok st1
    ∧ request st1 200 = Ok (1, st2)
    ∧ query_size st2 1 = Ok 200
    ∧ free_ st2 = [(100, 0%nat)].
Proof.
  apply (smaller_slot_last_released_first 16
           [Request 100; Request 100; Release 0]
           [EvRelease 0; EvRequest 100 1; EvRequest 100 0]
           {| match_range_ := 16; free_ := [(100, 0%nat)];
              data_ := [mk_buffer_info 0 100; mk_buffer_info 1 100] |}
           1 100 200).
  - vm_compute. reflexivity.
  - simpl. split; [|exact I]. right. vm_compute. right. left.
  - vm_compute. left.
  - vm_compute. reflexivity.
  - reflexivity.
  - vm_compute. discriminate.
  - discriminate.
  - reflexivity.
  - intros e [->|He]%elem_of_cons; [left; reflexivity|].
    by apply elem_of_nil in He.
Defined.

(** ** Equal sizes leave the free list in release order *)
Section release_order.
Implicit Types (st : buffer_assigner_t) (t : list event).

Lemma released_before_request t a b s id :
  released_before t a b → released_before (EvRequest s id :: t) a b.
Proof.
  intros (t2 & t1 & -> & Hb & Ha & Hin).
  exists (EvRequest s id :: t2), t1. split; [done|].
  rewrite !not_elem_of_cons. done.
Qed.

Lemma released_before_release t a b c :
  c ≠ a → c ≠ b →
  released_before t a b → released_before (EvRelease c :: t) a b.
Proof.
  intros Hca Hcb (t2 & t1 & -> & Hb & Ha & Hin).
  exists (EvRelease c :: t2), t1. split; [done|].
  rewrite !not_elem_of_cons. repeat split; try done; by intros [= ->].
Qed.

Lemma released_before_newest t a b :
  EvRelease a ∈ t → released_before (EvRelease b :: t) a b.
Proof.
  intros Hin. exists [], t. split; [done|].
  split; [apply not_elem_of_nil|]. split; [apply not_elem_of_nil|done].
Qed.

Lemma delete_lookup_pair {A} (l : list A) it i j x y :
  (i < j)%nat → delete it l !! i = Some x → delete it l !! j = Some y →
  ∃ i' j', (i' < j')%nat ∧ l !! i' = Some x ∧ l !! j' = Some y.
Proof.
  intros Hij Hi Hj.
  destruct (decide (i < it)%nat), (decide (j < it)%nat).
  - rewrite list_lookup_delete_lt in Hi, Hj by done. by exists i, j.
  - rewrite list_lookup_delete_lt in Hi by done.
    rewrite list_lookup_delete_ge in Hj by lia. exists i, (S j).
    split; [lia|done].
  - lia.
  - rewrite list_lookup_delete_ge in Hi, Hj by lia. exists (S i), (S j).
    split; [lia|done].
Qed.

Lemma insert_lookup_cases k p (m : multimap.t) j x :
  multimap.insert k p m !! j = Some x →
  ((j < multimap.upper_bound k m)%nat ∧ m !! j = Some x)
  ∨ (j = multimap.upper_bound k m ∧ x = (k, p))
  ∨ ((multimap.upper_bound k m < j)%nat ∧ m !! pred j = Some x).
Proof.
  intros Hj.
  destruct (Nat.lt_trichotomy j (multimap.upper_bound k m)) as [Hlt|[->|Hgt]].
  - left. by rewrite insert_lookup_before in Hj.
  - right; left. rewrite insert_lookup_upper_bound in Hj. by simplify_eq.
  - right; right. by rewrite insert_lookup_after in Hj.
Qed.

Lemma release_ordered_new R : release_ordered (new_assigner R) [].
Proof.
  split.
  - intros p Hp. by apply elem_of_nil in Hp.
  - intros i j k p q _ Hi. simpl in Hi. by rewrite lookup_nil in Hi.
Qed.

Lemma release_ordered_request st t s id st' :
  release_ordered st t → request st s = Ok (id, st') →
  release_ordered st' (EvRequest s id :: t).
Proof.
  intros [Hns Hord] Hreq.
  assert (∀ i j k p q, (i < j)%nat →
            free_ st !! i = Some (k, p) → free_ st !! j = Some (k, q) →
            released_before (EvRequest s id :: t) (N.of_nat p) (N.of_nat q))
    as Hord'.
  { intros i j k p q Hij Hi Hj. apply released_before_request. eauto. }
  apply request_cases in Hreq
    as [[_ Hout]|[[_ Hout]|(_ & it & k0 & e & b & _ & _ & Hout)]];
    apply (f_equal snd) in Hout; simpl in Hout; subst st'.
  - done.
  - done.
  - split; simpl.
    + intros p Hp. apply Hns. rewrite erase_pointers in Hp.
      by eapply list_elem_of_delete_inv.
    + intros i j k p q Hij Hi Hj. unfold multimap.erase in Hi, Hj.
      destruct (delete_lookup_pair _ _ _ _ _ _ Hij Hi Hj)
        as (i' & j' & Hij' & Hi' & Hj').
      by apply (Hord' i' j' k).
Qed.

Lemma release_ordered_release st t id st' :
  held_inv st t → release_ordered st t →
  (id = NO_BUFFER ∨ id ∈ live t) → release st id = Ok st' →
  release_ordered st' (EvRelease id :: t).
Proof.
  intros (Hwf & _ & Hoff & Hrel & _) [Hns Hord] Hheld Hr.
  pose proof Hwf as (_ & _ & Hsorted & _).
  assert (∀ i k p, free_ st !! i = Some (k, p) →
            p ∈ multimap.pointers (free_ st)) as Hptr.
  { intros i k p Hi. apply list_elem_of_fmap. exists (k, p).
    split; [done|]. by eapply list_elem_of_lookup_2. }
  apply release_cases in Hr as [[-> ->]|(Hne & b & Hb & ->)].
  - split; [done|]. intros i j k p q Hij Hi Hj.
    apply released_before_release; [| |by eapply Hord].
    + intros Heq. by apply (Hns p (Hptr _ _ _ Hi)).
    + intros Heq. by apply (Hns q (Hptr _ _ _ Hj)).
  - destruct Hheld as [?|Hlive]; [done|].
    pose proof (Hoff _ Hlive) as Hnotin.
    assert (∀ p, p ∈ multimap.pointers (free_ st) → id ≠ N.of_nat p) as Hother.
    { intros p Hp ->. by rewrite Nat2N.id in Hnotin. }
    split; simpl.
    + intros p. rewrite insert_pointers.
      intros [->|Hp]%elem_of_cons; [by rewrite N2Nat.id|by apply Hns].
    + intros i j k p q Hij Hi Hj.
      apply insert_lookup_cases in Hi as [[Hiu Hi]|[[-> Hi]|[Hiu Hi]]];
        apply insert_lookup_cases in Hj as [[Hju Hj]|[[-> Hj]|[Hju Hj]]];
        try lia.
      * apply released_before_release; eauto.
      * simplify_eq. rewrite N2Nat.id. apply released_before_newest.
        apply Hrel. by eapply Hptr.
      * apply released_before_release; eauto.
        apply (Hord i (pred j) k); [lia|done..].
      * simplify_eq.
        pose proof (upper_bound_spec (max_bytes_ b) _ _ _ Hsorted Hj) as Hub.
        simpl in Hub. lia.
      * apply released_before_release; eauto.
        apply (Hord (pred i) (pred j) k); [lia|done..].
Qed.

Lemma run_release_ordered st t ops t' st' :
  held_inv st t → release_ordered st t →
  run st t ops = Ok (t', st') → disciplined t' →
  held_inv st' t' ∧ release_ordered st' t'.
Proof.
  revert st t. induction ops as [|[s|id] ops IH]; intros st t Hinv Hord; simpl.
  - by intros [= <- <-].
  - destruct (request st s) as [[id st1]| |] eqn:Hreq; simpl; [|done..].
    destruct (held_request _ _ _ _ _ Hinv Hreq) as [Hinv1 _].
    apply IH; [done|]. by apply (release_ordered_request st t s id).
  - destruct (release st id) as [st1| |] eqn:Hrel; simpl; [|done..].
    intros Hrun Hdisc. pose proof (run_extends _ _ _ _ _ Hrun) as [t2 ->].
    pose proof (disciplined_earlier _ _ Hdisc) as [Hheld _].
    apply (IH st1 (EvRelease id :: t)); try done.
    + by apply (held_release st t id).
    + by apply (release_ordered_release st t id).
Qed.

End release_order.

(** X9: slots of equal recorded size are reused in the order of their
    release.  When a disciplined client releases a held slot of recorded
    size [m] while the free list already holds a slot of size [m], the
    next [request(m)] returns a slot [p'] that was on the free list with
    size [m] before this release, namely the one released before every
    other free slot of size [m] and before the slot released now; the slot
    released now stays on the free list and no recorded size changes. *)
Theorem equal_sizes_first_released_first R ops t st id m e0 :
  run (new_assigner R) [] ops = Ok (t, st) → disciplined t →
  id ∈ live t → query_size st id = Ok m →
  0 < m → R ≠ 0 → m * R < SIZE_MODULUS →
  e0 ∈ free_ st → e0.1 = m →
  ∃ it p' st1,
    free_ st !! it = Some (m, p')
    ∧ max_bytes_ <$> data_ st !! p' = Some m
    ∧ release st id = Ok st1
    ∧ request st1 m
      = Ok (N.of_nat p',
            {| match_range_ := match_range_ st;
               free_ := multimap.erase it (free_ st1);
               data_ := data_ st |})
    ∧ N.of_nat p' ≠ id
    ∧ (m, N.to_nat id) ∈ multimap.erase it (free_ st1)
    ∧ (∀ q, (m, q) ∈ free_ st → q ≠ p' →
         released_before t (N.of_nat p') (N.of_nat q))
    ∧ released_before (EvRelease id :: t) (N.of_nat p') id.
Proof.
  intros Hrun Hdisc Hlive Hq Hm HR Hfit Hin Hkey.
  destruct (held_slot_facts _ _ _ _ _ _ Hrun Hdisc Hlive Hq)
    as (Hwf & HRst & Hne & Hnotin & b & Hb & Hmb & Hidb).
  destruct (run_release_ordered _ _ _ _ _ (held_new R) (release_ordered_new R)
              Hrun Hdisc) as [(_ & _ & _ & Hrel & _) [_ Hord]].
  pose proof Hwf as (Hd & _ & Hsorted & _).
  destruct (lower_bound_hit m _ _ Hsorted Hin Hkey) as [p' Hhit].
  destruct (free_entry_recorded _ _ _ _ Hwf Hhit) as (b' & Hb' & Hmb').
  pose proof (upper_bound_spec m _ _ _ Hsorted Hhit) as Hub. simpl in Hub.
  pose proof (data_ok_lookup _ _ _ Hd Hb') as Hidb'.
  assert (p' ∈ multimap.pointers (free_ st)) as Hp'in.
  { apply list_elem_of_fmap. exists (m, p').
    split; [done|]. by eapply list_elem_of_lookup_2. }
  assert (p' ≠ N.to_nat id) as Hp' by (by intros ->).
  set (st1 := {| match_range_ := match_range_ st;
                 free_ := multimap.insert (max_bytes_ b) (N.to_nat id) (free_ st);
                 data_ := data_ st |}).
  assert (release st id = Ok st1) as Hrelease by (by apply release_slot).
  assert (wf st1) as Hwf1 by (by apply (wf_release st id)).
  exists (multimap.lower_bound m (free_ st)), p', st1.
  split; [done|]. split; [rewrite Hb'; simpl; by rewrite Hmb'|].
  split; [done|].
  split.
  { rewrite (request_scan_above st1 m (multimap.lower_bound m (free_ st)) p' b');
      try done; cbn [match_range_ free_ data_ st1]; rewrite ?HRst, ?Hmb, ?Hmb';
      try done; try lia.
    - unfold reuse. cbn [match_range_ free_ data_ st1].
      rewrite Hidb', Hmb', Hmb, N.max_id, HRst.
      rewrite list_insert_id; [done|]. rewrite Hb'. f_equal.
      destruct b' as [i' m']. simpl in *. by subst.
    - apply lower_bound_insert.
    - rewrite insert_lookup_before by lia. done.
    - nia. }
  split; [lia|]. split.
  { cbn [free_ st1]. rewrite Hmb. unfold multimap.erase.
    pose proof (insert_lookup_upper_bound m (N.to_nat id) (free_ st)) as Hnew.
    apply (list_elem_of_lookup_2 _ (pred (multimap.upper_bound m (free_ st)))).
    rewrite list_lookup_delete_ge by lia.
    by replace (S (pred (multimap.upper_bound m (free_ st))))
      with (multimap.upper_bound m (free_ st)) by lia. }
  split.
  - intros q [j Hj]%list_elem_of_lookup_1 Hqp.
    pose proof (lower_bound_spec m _ _ _ Hsorted Hj) as Hlb. simpl in Hlb.
    assert (j ≠ multimap.lower_bound m (free_ st)) as Hjne.
    { intros ->. rewrite Hhit in Hj. by simplify_eq. }
    apply (Hord (multimap.lower_bound m (free_ st)) j m); [lia|done..].
  - apply released_before_newest. by apply Hrel.
Qed.

Lemma equal_sizes_first_released_first_witness :
  ∃ it p' st1,
    [(100, 0%nat)] !! it = Some (100, p')
    ∧ max_bytes_ <$> [mk_buffer_info 0 100; mk_buffer_info 1 100] !! p'
      = Some 100
    ∧ release {| match_range_ := 16; free_ := [(100, 0%nat)];
                 data_ := [mk_buffer_info 0 100; mk_buffer_info 1 100] |} 1
      = Ok st1
    ∧ request st1 100
      = Ok (N.of_nat p',
            {| match_range_ := 16;
               free_ := multimap.erase it (free_ st1);
               data_ := [mk_buffer_info 0 100; mk_buffer_info 1 100] |})
    ∧ N.of_nat p' ≠ 1
    ∧ (100, N.to_nat 1) ∈ multimap.erase it (free_ st1)
    ∧ (∀ q, (100, q) ∈ [(100, 0%nat)] → q ≠ p' →
         released_before [EvRelease 0; EvRequest 100 1; EvRequest 100 0]
           (N.of_nat p') (N.of_nat q))
    ∧ released_before
        (EvRelease 1 :: [EvRelease 0; EvRequest 100 1; EvRequest 100 0])
        (N.of_nat p') 1.
Proof.
  apply (equal_sizes_first_released_first 16
           [Request 100; Request 100; Release 0]
           [EvRelease 0; EvRequest 100 1; EvRequest 100 0]
           {| match_range_ := 16; free_ := [(100, 0%nat)];
              data_ := [mk_buffer_info 0 100; mk_buffer_info 1 100] |}
           1 100 (100, 0%nat)).
  - vm_compute. reflexivity.
  - simpl. split; [|exact I]. right. vm_compute. right. left.
  - vm_compute. left.
  - vm_compute. reflexivity.
  - reflexivity.
  - discriminate.
  - reflexivity.
  - left.
  - reflexivity.
Defined.

(** ** Two releases, two requests *)

Lemma erase_insert_insert k p q (m : multimap.t) :
  multimap.erase (multimap.upper_bound k m)
    (multimap.insert k q (multimap.insert k p m))
  = multimap.insert k q m.
Proof.
  unfold multimap.erase. induction m as [|e m IH]; simpl.
  { by rewrite N.ltb_irrefl. }
  destruct (N.ltb_spec k e.1) as [Hlt|Hge]; simpl.
  - rewrite N.ltb_irrefl. simpl. by rewrite (proj2 (N.ltb_lt k e.1)).
  - rewrite (proj2 (N.ltb_ge k e.1)) by done. simpl. by rewrite IH.
Qed.

(** On a well-formed assigner, a request for the recorded size of the slot
    that alone has this size on the free list takes it off again. *)
Lemma request_takes_only_slot_of_size st (id : N) b :
  wf st → id ≠ NO_BUFFER → data_ st !! N.to_nat id = Some b → id_ b = id →
  N.to_nat id ∉ multimap.pointers (free_ st) →
  0 < max_bytes_ b → match_range_ st ≠ 0 →
  max_bytes_ b * match_range_ st < SIZE_MODULUS →
  (∀ e, e ∈ free_ st → e.1 ≠ max_bytes_ b) →
  request {| match_range_ := match_range_ st;
             free_ := multimap.insert (max_bytes_ b) (N.to_nat id) (free_ st);
             data_ := data_ st |} (max_bytes_ b)
  = Ok (id, st).
Proof.
  intros Hwf Hne Hb Hidb Hnotin Hm HR Hfit Hnone.
  assert (wf {| match_range_ := match_range_ st;
                free_ := multimap.insert (max_bytes_ b) (N.to_nat id) (free_ st);
                data_ := data_ st |}) as Hwf1.
  { apply (wf_release st id); [done|done|by apply release_slot]. }
  rewrite (request_scan_above _ (max_bytes_ b)
             (multimap.upper_bound (max_bytes_ b) (free_ st))
             (N.to_nat id) b); simpl; try done; try lia.
  - unfold reuse. simpl. rewrite erase_insert_upper_bound, Hidb, N.max_id.
    rewrite list_insert_id; [by destruct st|].
    rewrite Hb. f_equal. destruct b. simpl in *. by subst.
  - rewrite lower_bound_insert. by apply lower_eq_upper_bound.
  - apply insert_lookup_upper_bound.
  - nia.
Qed.

(** X17: first released, first reused.  When a disciplined client holds
    two slots [a] and [b] of the same recorded size [m], no free slot has
    size [m], and it releases [a] and then [b], the next two calls of
    [request(m)] return [a] and then [b], and the assigner is again
    exactly as it was before the two releases. *)
Theorem two_releases_come_back_in_order R ops t st a b m :
  run (new_assigner R) [] ops = Ok (t, st) → disciplined t →
  a ∈ live t → b ∈ live t → a ≠ b →
  query_size st a = Ok m → query_size st b = Ok m →
  0 < m → R ≠ 0 → m * R < SIZE_MODULUS →
  (∀ e, e ∈ free_ st → e.1 ≠ m) →
  ∃ st1 st2 st3,
    release st a = Ok st1 ∧ release st1 b = Ok st2
    ∧ request st2 m = Ok (a, st3) ∧ request st3 m = Ok (b, st).
Proof.
  intros Hrun Hdisc Hla Hlb Hab Hqa Hqb Hm HR Hfit Hnone.
  destruct (held_slot_facts _ _ _ _ _ _ Hrun Hdisc Hla Hqa)
    as (Hwf & HRst & Hnea & Hnotina & ba & Hba & Hma & Hida).
  destruct (held_slot_facts _ _ _ _ _ _ Hrun Hdisc Hlb Hqb)
    as (_ & _ & Hneb & Hnotinb & bb & Hbb & Hmb & Hidb).
  pose proof Hwf as (_ & _ & Hsorted & _).
  set (st1 := {| match_range_ := match_range_ st;
                 free_ := multimap.insert m (N.to_nat a) (free_ st);
                 data_ := data_ st |}).
  set (st2 := {| match_range_ := match_range_ st;
                 free_ := multimap.insert m (N.to_nat b)
                            (multimap.insert m (N.to_nat a) (free_ st));
                 data_ := data_ st |}).
  set (st3 := {| match_range_ := match_range_ st;
                 free_ := multimap.insert m (N.to_nat b) (free_ st);
                 data_ := data_ st |}).
  assert (release st a = Ok st1) as Hrel1.
  { unfold st1. rewrite <- Hma. by apply release_slot. }
  assert (wf st1) as Hwf1 by (by apply (wf_release st a)).
  assert (N.to_nat b ∉ multimap.pointers (free_ st1)) as Hnotinb1.
  { unfold st1. cbn [free_]. rewrite insert_pointers, not_elem_of_cons.
    split; [lia|done]. }
  assert (release st1 b = Ok st2) as Hrel2.
  { unfold st2. rewrite <- Hmb at 1. by apply (release_slot st1). }
  assert (wf st2) as Hwf2 by (by apply (wf_release st1 b)).
  pose proof Hwf1 as (_ & _ & Hsorted1 & _).
  exists st1, st2, st3. split; [done|]. split; [done|].
  assert (multimap.lower_bound m (free_ st) = multimap.upper_bound m (free_ st))
    as Hlu by (by apply lower_eq_upper_bound).
  assert (free_ st1 !! multimap.upper_bound m (free_ st)
          = Some (max_bytes_ ba, N.to_nat a)) as Hhit1.
  { unfold st1. cbn [free_]. rewrite Hma. apply insert_lookup_upper_bound. }
  pose proof (upper_bound_spec m _ _ _ Hsorted1 Hhit1) as Hub1.
  unfold st1 in Hub1. cbn [fst free_] in Hub1.
  split.
  - rewrite (request_scan_above st2 m (multimap.upper_bound m (free_ st))
               (N.to_nat a) ba); try done;
      cbn [match_range_ free_ data_ st2]; rewrite ?HRst, ?Hma;
      try done; try lia.
    + unfold reuse. cbn [match_range_ free_ data_ st2].
      rewrite erase_insert_insert, Hida, Hma, N.max_id, HRst.
      rewrite list_insert_id; [unfold st3; by rewrite HRst|].
      rewrite Hba. f_equal. destruct ba. simpl in *. by subst.
    + by rewrite !lower_bound_insert.
    + rewrite insert_lookup_before; [apply insert_lookup_upper_bound|].
      lia.
    + nia.
  - unfold st3. rewrite <- Hmb.
    apply request_takes_only_slot_of_size; try done; rewrite ?Hmb, ?HRst;
      try done.
Qed.

Lemma two_releases_come_back_in_order_witness :
  ∃ st1 st2 st3,
    release {| match_range_ := 16; free_ := [];
               data_ := [mk_buffer_info 0 100; mk_buffer_info 1 100] |} 0
      = Ok st1
    ∧ release st1 1 = Ok st2
    ∧ request st2 100 = Ok (0, st3)
    ∧ request st3 100
      = Ok (1, {| match_range_ := 16; free_ := [];
                  data_ := [mk_buffer_info 0 100; mk_buffer_info 1 100] |}).
Proof.
  apply (two_releases_come_back_in_order 16 [Request 100; Request 100]
           [EvRequest 100 1; EvRequest 100 0]
           {| match_range_ := 16; free_ := [];
              data_ := [mk_buffer_info 0 100; mk_buffer_info 1 100] |}
           0 1 100).
  - vm_compute. reflexivity.
  - exact I.
  - vm_compute. right. left.
  - vm_compute. left.
  - discriminate.
  - vm_compute. reflexivity.
  - vm_compute. reflexivity.
  - reflexivity.
  - discriminate.
  - reflexivity.
  - intros e He. by apply elem_of_nil in He.
Defined.
